(** * slate-react [Editable]: selection sync, event mediation, clipboard codec

    A shallow embedding of
    - [packages/slate-react/src/components/editable/utils.ts]
      ([isRangeEqual], [hasTarget], [hasEditableTarget], [isEventHandled],
      [setFragmentData], [getPlainText]) and
    - the [Editable] component (selection effect, [selectionchange]
      listener, placeholder decoration, and the React event handlers).

    The document model ([slate]) and the association registry
    ([ReactEditor]) are collaborators of this code; the first is modelled
    in [Module Slate], the second is an interface record. *)

From Stdlib Require Import NArith Ascii String.
From stdpp Require Import gmap strings list fin_maps.

Set Default Proof Using "Type".

(** ** JavaScript strings

    A JavaScript string is a sequence of UTF-16 code units.  Names that the
    source only ever compares against literals (tag names, attribute names,
    transfer formats, [display] values) are kept as [string]. *)

Definition JSString := list N.

Definition lit (s : string) : JSString :=
  (λ a, N_of_ascii a) <$> list_ascii_of_string s.

(** [WhiteSpace] and [LineTerminator] code units, the ones
    [String.prototype.trim] strips. *)
Definition isWhiteSpace (c : N) : bool :=
  ((9 <=? c) && (c <=? 13) || (c =? 32) || (c =? 160) || (c =? 5760)
   || (8192 <=? c) && (c <=? 8202) || (c =? 8232) || (c =? 8233)
   || (c =? 8239) || (c =? 8287) || (c =? 12288) || (c =? 65279))%N.

Fixpoint dropWhile {A} (f : A → bool) (l : list A) : list A :=
  match l with
  | [] => []
  | x :: l' => if f x then dropWhile f l' else l
  end.

Definition trim (s : JSString) : JSString :=
  reverse (dropWhile isWhiteSpace (reverse (dropWhile isWhiteSpace s))).

(** [s !== ''] *)
Definition nonEmpty (s : JSString) : bool :=
  match s with [] => false | _ => true end.

(** ** The document model *)

(** Modelled from the spec: the [slate] package is a collaborator whose code
    is not part of these sources. What the component uses of it is modelled
    here: the logical document (elements and text leaves), paths, points and
    ranges, and the editor's read interface (start and end of a node or
    path, selection predicates, void-node lookup at a path or point,
    document-to-text stringification), with the select and deselect
    transforms. *)

Module Slate.

(** Modelled from the spec: a logical path, the child indices from the
    document root to a node. *)
Definition Path := list nat.

(** Modelled from the spec: a point, a path to a leaf and an offset in its
    text. *)
Record Point := mkPoint { path : Path; offset : nat }.

(** Modelled from the spec: a logical selection, an anchor and a focus. *)
Record Range := mkRange { anchor : Point; focus : Point }.

(** Modelled from the spec: a leaf carries text; an element carries
    children. [kind] stands for the element's custom properties, which the
    editor's [isVoid] reads. *)
#[local] Unset Elimination Schemes.
Inductive Descendant :=
| Text (text : JSString)
| Element (kind : string) (nodes : list Descendant).
#[local] Set Elimination Schemes.

(** Modelled from the spec: the editor: its children, its selection, and its
    overridable [isVoid] method. *)
Record Editor := mkEditor {
  children : list Descendant;
  selection : option Range;
  isVoid : Descendant → bool;
}.

(** Modelled from the spec: a node is the editor itself or one of its
    descendants. *)
Inductive Node :=
| EditorNode
| Desc (d : Descendant).

(** Modelled from the spec: a location is a path, a point or a range. *)
Inductive Location :=
| AtPath (p : Path)
| AtPoint (pt : Point)
| AtRange (r : Range).

#[global] Instance Point_eq_dec : EqDecision Point.
Proof. solve_decision. Defined.

#[global] Instance Range_eq_dec : EqDecision Range.
Proof. solve_decision. Defined.

(** Modelled from the spec: [Text.isText]. *)
Definition isText (n : Node) : bool :=
  match n with Desc (Text _) => true | _ => false end.

(** Modelled from the spec: [Editor.isVoid]: an element that the editor's
    [isVoid] accepts; the editor itself is not an element. *)
Definition Editor_isVoid (e : Editor) (n : Node) : bool :=
  match n with
  | Desc (Element k cs) => isVoid e (Element k cs)
  | _ => false
  end.
#[global] Arguments Editor_isVoid : simpl never.

(** Modelled from the spec: [Node.get] below a descendant; [None] where the
    source throws. *)
Fixpoint get_from (d : Descendant) (p : Path) : option Descendant :=
  match p with
  | [] => Some d
  | i :: p' =>
      match d with
      | Text _ => None
      | Element _ cs => c ← cs !! i; get_from c p'
      end
  end.

(** Modelled from the spec: [Node.get(editor, path)]. *)
Definition Node_get (e : Editor) (p : Path) : option Node :=
  match p with
  | [] => Some EditorNode
  | i :: p' => c ← children e !! i; Desc <$> get_from c p'
  end.

(** Modelled from the spec: the loop of [Node.first]: descend through first
    children until a text or a node without children is reached. *)
Fixpoint first_from (d : Descendant) : Path :=
  match d with
  | Text _ => []
  | Element _ cs =>
      match cs with
      | [] => []
      | c :: _ => 0 :: first_from c
      end
  end.

(** Modelled from the spec: the same loop from the editor or a descendant. *)
Definition first_of (e : Editor) (n : Node) : Path :=
  match n with
  | Desc d => first_from d
  | EditorNode =>
      match children e with
      | [] => []
      | c :: _ => 0 :: first_from c
      end
  end.

(** Modelled from the spec: the loop of [Node.last]. *)
Fixpoint last_in (last_from : Descendant → Path) (cs : list Descendant)
    (i : nat) : Path :=
  match cs with
  | [] => []
  | [c] => i :: last_from c
  | _ :: cs' => last_in last_from cs' (S i)
  end.

(** Modelled from the spec: the loop of [Node.last] below a descendant. *)
Fixpoint last_from (d : Descendant) : Path :=
  match d with
  | Text _ => []
  | Element _ cs => last_in last_from cs 0
  end.

(** Modelled from the spec: the same loop from the editor or a descendant. *)
Definition last_of (e : Editor) (n : Node) : Path :=
  match n with
  | Desc d => last_from d
  | EditorNode => last_in last_from (children e) 0
  end.

(** Modelled from the spec: [Node.first], the first node below a path and
    its path; [None] where [Node.get] throws. *)
Definition Node_first (e : Editor) (p : Path) : option (Node * Path) :=
  n ← Node_get e p;
  let fp := p ++ first_of e n in
  m ← Node_get e fp; Some (m, fp).

(** Modelled from the spec: [Node.last]. *)
Definition Node_last (e : Editor) (p : Path) : option (Node * Path) :=
  n ← Node_get e p;
  let lp := p ++ last_of e n in
  m ← Node_get e lp; Some (m, lp).

(** Modelled from the spec: [Path.compare]: -1, 0 or 1; 0 also for an
    ancestor and a descendant. *)
Fixpoint Path_compare (p q : Path) : Z :=
  match p, q with
  | i :: p', j :: q' =>
      if decide (i < j) then (-1)%Z
      else if decide (j < i) then 1%Z
      else Path_compare p' q'
  | _, _ => 0%Z
  end.

(** Modelled from the spec: [Point.compare], by path, then by offset. *)
Definition Point_compare (a b : Point) : Z :=
  let result := Path_compare (path a) (path b) in
  if decide (result = 0%Z) then
    if decide (offset a < offset b) then (-1)%Z
    else if decide (offset b < offset a) then 1%Z
    else 0%Z
  else result.

(** Modelled from the spec: [Point.isAfter]. *)
Definition Point_isAfter (a b : Point) : bool :=
  bool_decide (Point_compare a b = 1%Z).

(** Modelled from the spec: [Point.equals], same offset and same path. *)
Definition Point_equals (a b : Point) : bool :=
  bool_decide (offset a = offset b) && bool_decide (path a = path b).

(** Modelled from the spec: [Range.isBackward], the anchor after the focus. *)
Definition Range_isBackward (r : Range) : bool :=
  Point_isAfter (anchor r) (focus r).

(** Modelled from the spec: [Range.edges]: start and end, whatever the
    direction. *)
Definition Range_edges (r : Range) : Point * Point :=
  if Range_isBackward r then (focus r, anchor r) else (anchor r, focus r).

(** Modelled from the spec: [Range.isCollapsed], anchor equal to focus. *)
Definition Range_isCollapsed (r : Range) : bool :=
  Point_equals (anchor r) (focus r).

(** Modelled from the spec: [Range.isExpanded], not collapsed. *)
Definition Range_isExpanded (r : Range) : bool :=
  negb (Range_isCollapsed r).

(** Modelled from the spec: [Editor.point] at a chosen edge; [None] where
    the source throws (no node at the path, or no text at that edge). *)
Definition Editor_point (e : Editor) (at_ : Location) (atEnd : bool)
  : option Point :=
  match at_ with
  | AtPath p =>
      '(n, q) ← (if atEnd then Node_last e p else Node_first e p);
      match n with
      | Desc (Text t) => Some (mkPoint q (if atEnd then length t else 0))
      | _ => None
      end
  | AtRange r =>
      let '(s, f) := Range_edges r in Some (if atEnd then f else s)
  | AtPoint pt => Some pt
  end.

(** Modelled from the spec: [Editor.start], the start of a node or path. *)
Definition Editor_start (e : Editor) (at_ : Location) : option Point :=
  Editor_point e at_ false.

(** Modelled from the spec: [Editor.end], the end of a node or path. *)
Definition Editor_end (e : Editor) (at_ : Location) : option Point :=
  Editor_point e at_ true.

(** Modelled from the spec: [Editor.range(editor, at)] with no second
    location. *)
Definition Editor_range (e : Editor) (at_ : Location) : option Range :=
  match at_ with
  | AtRange r => Some r
  | _ =>
      s ← Editor_start e at_;
      f ← Editor_end e at_;
      Some (mkRange s f)
  end.

(** Modelled from the spec: [Path.common], the longest shared prefix. *)
Fixpoint Path_common (p q : Path) : Path :=
  match p, q with
  | i :: p', j :: q' => if decide (i = j) then i :: Path_common p' q' else []
  | _, _ => []
  end.

(** Modelled from the spec: [Editor.path]: the path a location stands for
    (for a range, the common ancestor of its two paths). *)
Definition Editor_path (at_ : Location) : Path :=
  match at_ with
  | AtPath p => p
  | AtPoint pt => path pt
  | AtRange r => Path_common (path (anchor r)) (path (focus r))
  end.

(** Modelled from the spec: the loop of [Editor.levels] with [voids =
    false], below a descendant: keep the entries that match and stop after
    the first kept entry that is void. [None] where [Node.get] throws on the
    way. *)
Fixpoint levels_from (e : Editor) (matches : Node → bool)
    (d : Descendant) (here rest : Path) : option (list (Node * Path)) :=
  let descend (acc : list (Node * Path)) :=
    match rest with
    | [] => Some acc
    | i :: rest' =>
        match d with
        | Text _ => None
        | Element _ cs =>
            c ← cs !! i;
            tl ← levels_from e matches c (here ++ [i]) rest';
            Some (acc ++ tl)
        end
    end in
  if matches (Desc d) then
    if Editor_isVoid e (Desc d) then Some [(Desc d, here)]
    else descend [(Desc d, here)]
  else descend [].

(** Modelled from the spec: [Editor.levels] from the editor down to a path,
    reversed on demand. *)
Definition Editor_levels (e : Editor) (p : Path)
    (matches : Node → bool) (rev : bool) : option (list (Node * Path)) :=
  let top := if matches EditorNode then [(EditorNode, [])] else [] in
  l ← match p with
       | [] => Some top
       | i :: p' =>
           c ← children e !! i;
           tl ← levels_from e matches c [i] p';
           Some (top ++ tl)
       end;
  Some (if rev then reverse l else l).

(** Modelled from the spec: [Editor.above] in its default mode (lowest
    first): the first kept level that is not a text and not the node at the
    path itself. *)
Definition Editor_above (e : Editor) (at_ : Location)
    (matches : Node → bool) : option (option (Node * Path)) :=
  let p := Editor_path at_ in
  l ← Editor_levels e p matches true;
  Some (head (filter (λ np, negb (isText np.1) ∧ np.2 ≠ p) l)).

(** Modelled from the spec: [Editor.void]: the void element above a
    location, if any; the outer [None] is a throw. *)
Definition Editor_void (e : Editor) (at_ : Location)
  : option (option (Node * Path)) :=
  Editor_above e at_ (Editor_isVoid e).

(** Modelled from the spec: [Node.texts]: the text leaves in document order,
    with their paths. *)
Fixpoint texts_in (texts_from : Descendant → Path → list (Descendant * Path))
    (cs : list Descendant) (here : Path) (i : nat)
  : list (Descendant * Path) :=
  match cs with
  | [] => []
  | c :: cs' => texts_from c (here ++ [i]) ++ texts_in texts_from cs' here (S i)
  end.

(** Modelled from the spec: the text leaves below a descendant. *)
Fixpoint texts_from (d : Descendant) (here : Path)
  : list (Descendant * Path) :=
  match d with
  | Text _ => [(d, here)]
  | Element _ cs => texts_in texts_from cs here 0
  end.

(** Modelled from the spec: [Node.texts(editor)]. *)
Definition Node_texts (e : Editor) : list (Descendant * Path) :=
  texts_in texts_from (children e) [] 0.

(** Modelled from the spec: [Node.string]: the concatenated text of a node. *)
Fixpoint string_from (d : Descendant) : JSString :=
  match d with
  | Text t => t
  | Element _ cs => concat (string_from <$> cs)
  end.

(** Modelled from the spec: [Node.string(editor)]. *)
Definition Node_string (e : Editor) : JSString :=
  concat (string_from <$> children e).

(** Modelled from the spec: the transforms on the selection: after
    [Transforms.select] the selection is the given range, after
    [Transforms.deselect] there is none. *)
Definition Transforms_select (e : Editor) (r : Range) : Editor :=
  mkEditor (children e) (Some r) (isVoid e).

(** Modelled from the spec: [Transforms.deselect]. *)
Definition Transforms_deselect (e : Editor) : Editor :=
  mkEditor (children e) None (isVoid e).

End Slate.

(** ** The rendered tree and the platform's selection *)

Module DOM.

(** A node of the live rendered tree, known by its identity ([===]). *)
Definition DOMRef := nat.

Record DOMRange := mkDOMRange {
  startContainer : DOMRef;
  startOffset : nat;
  endContainer : DOMRef;
  endOffset : nat;
}.

#[global] Instance DOMRange_eq_dec : EqDecision DOMRange.
Proof. solve_decision. Defined.

(** [window.getSelection()]: [type] is ['None'] exactly when the
    selection holds no range. *)
Record DOMSelection := mkDOMSelection { rangeAt0 : option DOMRange }.

Definition hasRange (s : DOMSelection) : bool :=
  bool_decide (is_Some (rangeAt0 s)).

(** Detached markup, as [Range.cloneContents] returns it and as
    [document.createElement] builds it.  [display] is the value
    [getComputedStyle(node).getPropertyValue('display')] reports. *)
#[local] Unset Elimination Schemes.
Inductive DOMNode :=
| DText (nodeValue : JSString)
| DElement (tagName : string) (attributes : gmap string JSString)
    (display : string) (childNodes : list DOMNode)
| DComment (data : JSString).
#[local] Set Elimination Schemes.

Definition isDOMText (n : DOMNode) : bool :=
  match n with DText _ => true | _ => false end.

(** [node.textContent]: a text or a comment gives its data, an element
    the text of its descendants, comments left out. *)
Fixpoint textContent (n : DOMNode) : JSString :=
  match n with
  | DText v => v
  | DComment d => d
  | DElement _ _ _ cs =>
      (fix go (cs : list DOMNode) : JSString :=
         match cs with
         | [] => []
         | DComment _ :: cs' => go cs'
         | c :: cs' => textContent c ++ go cs'
         end) cs
  end.

Definition hasAttribute (name : string) (n : DOMNode) : bool :=
  match n with
  | DElement _ attrs _ _ => bool_decide (is_Some (attrs !! name))
  | _ => false
  end.

(** [element.setAttribute(name, value)]; only an element has the method. *)
Definition setAttribute (name : string) (value : JSString) (n : DOMNode)
  : option DOMNode :=
  match n with
  | DElement tag attrs d cs => Some (DElement tag (<[name := value]> attrs) d cs)
  | _ => None
  end.

(** The node at a path of child indices below a list of siblings. *)
Fixpoint nodeAt (ns : list DOMNode) (p : list nat) : option DOMNode :=
  match p with
  | [] => None
  | i :: p' =>
      n ← ns !! i;
      match p' with
      | [] => Some n
      | _ => match n with
             | DElement _ _ _ cs => nodeAt cs p'
             | _ => None
             end
      end
  end.

(** The node at a path below a node, the empty path being the node. *)
Definition nodeIn (n : DOMNode) (p : list nat) : option DOMNode :=
  nodeAt [n] (0 :: p).

(** Replace the node at a path; out of range nothing changes. *)
Fixpoint alterAt (f : DOMNode → DOMNode) (ns : list DOMNode) (p : list nat)
  : list DOMNode :=
  match p with
  | [] => ns
  | i :: p' =>
      match p' with
      | [] => alter f i ns
      | _ => alter (λ n, match n with
                         | DElement tag attrs d cs =>
                             DElement tag attrs d (alterAt f cs p')
                         | _ => n
                         end) i ns
      end
  end.

(** [fragment.querySelector('[name]')]: the first element in document
    order that carries the attribute, as a path; [None] for [null]. *)
Fixpoint queryFrom (queryIn : DOMNode → option (list nat))
    (ns : list DOMNode) (i : nat) : option (list nat) :=
  match ns with
  | [] => None
  | c :: ns' =>
      match queryIn c with
      | Some p => Some (i :: p)
      | None => queryFrom queryIn ns' (S i)
      end
  end.

Fixpoint queryIn (name : string) (n : DOMNode) : option (list nat) :=
  match n with
  | DElement _ attrs _ cs =>
      if bool_decide (is_Some (attrs !! name)) then Some []
      else queryFrom (queryIn name) cs 0
  | _ => None
  end.

Definition querySelector (name : string) (ns : list DOMNode)
  : option (list nat) :=
  queryFrom (queryIn name) ns 0.

End DOM.

(** ** The world the component runs in *)

Module Runtime.
Import Slate DOM.

(** The [state] object the component keeps for its handlers. *)
Record HookState := mkHookState {
  isComposing : bool;
  isUpdatingSelection : bool;
  latestElement : option DOMRef;
}.

(** A decoration: a range, the placeholder marker
    ([PLACEHOLDER_SYMBOL]) and, with it, the placeholder text. *)
Record Decoration := mkDecoration {
  dec_anchor : Point;
  dec_focus : Point;
  dec_marker : bool;
  dec_placeholder : option JSString;
}.

(** The callback handed to [setTimeout] by the selection effect: it
    refocuses the element it was given (Firefox), then clears
    [isUpdatingSelection]. *)
Record Timeout := mkTimeout { refocus : option DOMRef }.

(** What the code asks of the model, of the native selection, of the
    transfer object and of the event, in the order it asks. *)
Inductive Action :=
| Select (r : Range)
| Deselect
| DeleteFragment
| RemoveAllRanges
| AddRange (r : DOMRange)
| ScrollIntoView (leafEl : DOMRef)
| FocusElement (el : DOMRef)
| SetData (format : string) (data : JSString)
| PreventDefault.

Record World := mkWorld {
  editor : Editor;
  state : HookState;
  IS_FOCUSED : bool;
  IS_READ_ONLY : bool;
  domSelection : option DOMSelection;
  activeElement : option DOMRef;
  dataTransfer : gmap string JSString;
  arrays : list (list Decoration);
  timeouts : list Timeout;
  trace : list Action;
}.

Definition with_editor (f : Editor → Editor) (w : World) : World :=
  mkWorld (f (editor w)) (state w) (IS_FOCUSED w) (IS_READ_ONLY w)
    (domSelection w) (activeElement w) (dataTransfer w) (arrays w)
    (timeouts w) (trace w).

Definition with_state (f : HookState → HookState) (w : World) : World :=
  mkWorld (editor w) (f (state w)) (IS_FOCUSED w) (IS_READ_ONLY w)
    (domSelection w) (activeElement w) (dataTransfer w) (arrays w)
    (timeouts w) (trace w).

Definition with_IS_FOCUSED (b : bool) (w : World) : World :=
  mkWorld (editor w) (state w) b (IS_READ_ONLY w)
    (domSelection w) (activeElement w) (dataTransfer w) (arrays w)
    (timeouts w) (trace w).

Definition with_IS_READ_ONLY (b : bool) (w : World) : World :=
  mkWorld (editor w) (state w) (IS_FOCUSED w) b
    (domSelection w) (activeElement w) (dataTransfer w) (arrays w)
    (timeouts w) (trace w).

Definition with_domSelection (s : option DOMSelection) (w : World) : World :=
  mkWorld (editor w) (state w) (IS_FOCUSED w) (IS_READ_ONLY w)
    s (activeElement w) (dataTransfer w) (arrays w)
    (timeouts w) (trace w).

Definition with_activeElement (a : option DOMRef) (w : World) : World :=
  mkWorld (editor w) (state w) (IS_FOCUSED w) (IS_READ_ONLY w)
    (domSelection w) a (dataTransfer w) (arrays w)
    (timeouts w) (trace w).

Definition with_dataTransfer
    (f : gmap string JSString → gmap string JSString) (w : World) : World :=
  mkWorld (editor w) (state w) (IS_FOCUSED w) (IS_READ_ONLY w)
    (domSelection w) (activeElement w) (f (dataTransfer w)) (arrays w)
    (timeouts w) (trace w).

Definition with_arrays
    (f : list (list Decoration) → list (list Decoration)) (w : World)
  : World :=
  mkWorld (editor w) (state w) (IS_FOCUSED w) (IS_READ_ONLY w)
    (domSelection w) (activeElement w) (dataTransfer w) (f (arrays w))
    (timeouts w) (trace w).

Definition with_timeouts (f : list Timeout → list Timeout) (w : World)
  : World :=
  mkWorld (editor w) (state w) (IS_FOCUSED w) (IS_READ_ONLY w)
    (domSelection w) (activeElement w) (dataTransfer w) (arrays w)
    (f (timeouts w)) (trace w).

Definition with_trace (f : list Action → list Action) (w : World) : World :=
  mkWorld (editor w) (state w) (IS_FOCUSED w) (IS_READ_ONLY w)
    (domSelection w) (activeElement w) (dataTransfer w) (arrays w)
    (timeouts w) (f (trace w)).

(** A run either returns or throws; the world as it was left goes with
    both. *)
Inductive Outcome (A : Type) :=
| Returned (a : A) (w : World)
| Thrown (w : World).
Arguments Returned {A} a w.
Arguments Thrown {A} w.

Definition M (A : Type) : Type := World → Outcome A.

#[global] Instance M_ret : MRet M := λ A a w, Returned a w.

#[global] Instance M_bind : MBind M := λ A B f m w,
  match m w with
  | Returned a w' => f a w'
  | Thrown w' => Thrown w'
  end.

Definition gets {A} (f : World → A) : M A := λ w, Returned (f w) w.

Definition modify (f : World → World) : M unit := λ w, Returned () (f w).

Definition throw {A} : M A := λ w, Thrown w.

Definition emit (a : Action) : M unit := modify (with_trace (λ t, t ++ [a])).

Definition skip : M unit := mret ().

(** A value the model can fail to deliver: the failure is a throw. *)
Definition orThrow {A} (o : option A) : M A :=
  match o with Some a => mret a | None => throw end.

Definition finalWorld {A} (o : Outcome A) : World :=
  match o with Returned _ w => w | Thrown w => w end.

(** The actions a run added to the trace. *)
Definition emitted (before after : World) : list Action :=
  drop (length (trace before)) (trace after).
#[global] Arguments emitted : simpl never.

Definition modelAffecting (a : Action) : bool :=
  match a with
  | Select _ | Deselect | DeleteFragment => true
  | _ => false
  end.

(** Events.  A target that is no DOM node (the window, say) fails
    [isDOMNode]. *)
Inductive EventTarget :=
| TargetNode (n : DOMRef)
| TargetOther.

#[global] Instance EventTarget_eq_dec : EqDecision EventTarget.
Proof. solve_decision. Defined.

Record SyntheticEvent := mkEvent {
  target : option EventTarget;
  relatedTarget : option EventTarget;
  defaultPrevented : bool;
  propagationStopped : bool;
}.

(** A handler supplied by the caller: it runs in the world and leaves the
    event as it marked it. *)
Definition Override := SyntheticEvent → M SyntheticEvent.

Record EditableProps := mkProps {
  decorate : option (Path → M nat);
  placeholder : option JSString;
  readOnly : bool;
  onBlur : option Override;
  onClick : option Override;
  onCopy : option Override;
  onCut : option Override;
  onDragOver : option Override;
  onDragStart : option Override;
  onFocus : option Override;
}.

(** What the component takes from its collaborators: the association
    registry ([ReactEditor]), the model's transform engine, and the
    platform. *)
Record Collaborators := mkCollaborators {
  hasDOMNode : Editor → DOMRef → bool → bool;
  toSlateNode : Editor → DOMRef → Node;
  findPath : Editor → Node → Path;
  toDOMNode : Editor → Node → DOMRef;
  toDOMRange : Editor → Range → DOMRange;
  toSlateRange : Editor → DOMRange → Range;
  Node_fragment : Editor → Range → list Descendant;
  Editor_deleteFragment : Editor → Editor;
  cloneContents : DOMRange → list DOMNode;
  setEndAfter : DOMRange → DOMRef → DOMRange;
  parentElement : DOMRef → DOMRef;
  isLiveElement : DOMRef → bool;
  liveHasAttribute : DOMRef → string → bool;
  innerHTML : list DOMNode → JSString;
  createdDisplay : string → string;
  encodeFragment : list Descendant → JSString;
  IS_FIREFOX : bool;
}.

End Runtime.

(** ** [editable/utils.ts] *)

Module Utils.
Import Slate DOM Runtime.

(** [defaultDecorate = () => []]: a new empty array at every call. *)
Definition defaultDecorate : Path → M nat :=
  λ _ w, Returned (length (arrays w)) (with_arrays (λ a, a ++ [[]]) w).

(** Check if two DOM range objects are equal. *)
Definition isRangeEqual (a b : DOMRange) : bool :=
  (bool_decide (startContainer a = startContainer b) &&
   bool_decide (startOffset a = startOffset b) &&
   bool_decide (endContainer a = endContainer b) &&
   bool_decide (endOffset a = endOffset b))
  ||
  (bool_decide (startContainer a = endContainer b) &&
   bool_decide (startOffset a = endOffset b) &&
   bool_decide (endContainer a = startContainer b) &&
   bool_decide (endOffset a = startOffset b)).

(** Get a plaintext representation of the content of a node, accounting
    for block elements which get a newline appended. *)
Fixpoint getPlainText (domNode : DOMNode) : JSString :=
  match domNode with
  | DText nodeValue => if nonEmpty nodeValue then nodeValue else []
  | DElement tagName _ display childNodes =>
      let text := foldl (λ text childNode, text ++ getPlainText childNode)
                    [] childNodes in
      if bool_decide (display = "block") || bool_decide (display = "list")
         || bool_decide (tagName = "BR")
      then text ++ [10%N]
      else text
  | DComment _ => []
  end.

(** The zero-width spans of the clone get their text replaced: a newline
    for the kind ['n'], nothing otherwise.  Assigning [textContent]
    replaces the children, so nothing below such a span is visited. *)
Fixpoint stripZeroWidth (n : DOMNode) : DOMNode :=
  match n with
  | DElement tag attrs d cs =>
      match attrs !! "data-slate-zero-width" with
      | Some kind =>
          DElement tag attrs d
            (if bool_decide (kind = lit "n") then [DText [10%N]] else [])
      | None => DElement tag attrs d (stripZeroWidth <$> cs)
      end
  | _ => n
  end.

(** Whether the node at a path lies below a zero-width span, and so is
    cut off from the clone when the spans are rewritten. *)
Fixpoint belowZeroWidth (ns : list DOMNode) (p : list nat) : bool :=
  match p with
  | [] => false
  | i :: p' =>
      match p', ns !! i with
      | _ :: _, Some (DElement _ attrs _ cs) =>
          bool_decide (is_Some (attrs !! "data-slate-zero-width"))
          || belowZeroWidth cs p'
      | _, _ => false
      end
  end.

(** Take the node at a path out of its parent. *)
Fixpoint removeAt (ns : list DOMNode) (p : list nat) : list DOMNode :=
  match p with
  | [] => ns
  | i :: p' =>
      match p' with
      | [] => delete i ns
      | _ => alter (λ n, match n with
                         | DElement tag attrs d cs =>
                             DElement tag attrs d (removeAt cs p')
                         | _ => n
                         end) i ns
      end
  end.

(** [node.textContent && node.textContent.trim() !== ''] *)
Definition nonBlank (n : DOMNode) : bool :=
  nonEmpty (textContent n) && nonEmpty (trim (textContent n)).

(** [let attach = contents.childNodes[0]], then the [forEach] over the
    children of the clone: the index of the child [attach] ends on. *)
Definition attachStep (attach : option nat) (entry : nat * DOMNode)
  : option nat :=
  let '(i, node) := entry in if nonBlank node then Some i else attach.

Definition initialAttach (contents : list DOMNode) : option nat :=
  foldl attachStep
    (match contents with [] => None | _ :: _ => Some 0 end)
    (imap pair contents).

(** What [attach] refers to: nothing ([undefined], [null]), a node of
    [contents], or a node of the first clone after [contents] was
    assigned a second clone. *)
Inductive AttachRef :=
| NoAttach
| Within (p : list nat)
| Outside (n : DOMNode).

(** [attach] as the code leaves it before the zero-width spans are
    rewritten.  [second] is the clone made when the end is void. *)
Definition chooseAttach (first : list DOMNode)
    (second : option (list DOMNode)) (startVoid : bool) : AttachRef :=
  if startVoid then
    match querySelector "data-slate-spacer" (default first second) with
    | Some p => Within p
    | None => NoAttach
    end
  else
    match initialAttach first, second with
    | None, _ => NoAttach
    | Some i, None => Within [i]
    | Some i, Some _ => from_option Outside NoAttach (first !! i)
    end.

Definition span (display : string) (child : DOMNode) : DOMNode :=
  DElement "SPAN" {[ "style" := lit "white-space: pre;" ]} display [child].

(** From the rewriting of the zero-width spans to
    [attach.setAttribute('data-slate-fragment', encoded)]: the clone as it
    is serialised, or [None] for the [TypeError] of calling
    [setAttribute] on something that has none. *)
Definition attachFragment (spanDisplay : string) (contents : list DOMNode)
    (attach : AttachRef) (encoded : JSString) : option (list DOMNode) :=
  let stripped := stripZeroWidth <$> contents in
  let mark := setAttribute "data-slate-fragment" encoded in
  match attach with
  | NoAttach => None
  | Outside n =>
      if isDOMText n then
        s ← mark (span spanDisplay n); Some (stripped ++ [s])
      else _ ← mark n; Some stripped
  | Within p =>
      if belowZeroWidth contents p then
        n ← nodeAt contents p; _ ← mark n; Some stripped
      else
        n ← nodeAt stripped p;
        if isDOMText n then
          s ← mark (span spanDisplay n); Some (removeAt stripped p ++ [s])
        else
          _ ← mark n;
          Some (alterAt (λ n, default n (mark n)) stripped p)
  end.

Section WithCollaborators.
Context (C : Collaborators).

(** Check if the target is in the editor. *)
Definition hasTarget (e : Editor) (target : option EventTarget) : bool :=
  match target with
  | Some (TargetNode n) => hasDOMNode C e n false
  | _ => false
  end.

(** Check if the target is editable and in the editor. *)
Definition hasEditableTarget (e : Editor) (target : option EventTarget)
  : bool :=
  match target with
  | Some (TargetNode n) => hasDOMNode C e n true
  | _ => false
  end.

(** Check if an event is overrided by a handler. *)
Definition isEventHandled (event : SyntheticEvent)
    (handler : option Override) : M bool :=
  match handler with
  | None => mret false
  | Some h =>
      event' ← h event;
      mret (defaultPrevented event' || propagationStopped event')
  end.

Definition setData (format : string) (data : JSString) : M unit :=
  _ ← modify (with_dataTransfer (insert format data));
  emit (SetData format data).

(** The part of [setFragmentData] that works on the clone: from
    [ReactEditor.toDOMRange] to [attach.setAttribute].  [None] is the
    [TypeError] of an [attach] without [setAttribute]. *)
Definition prepareClone (e : Editor) (sel : Range)
    (startVoid endVoid : option (Node * Path)) (encoded : JSString)
  : option (list DOMNode) :=
  let domRange := toDOMRange C e sel in
  let first := cloneContents C domRange in
  let second :=
    match endVoid with
    | Some (voidNode, _) =>
        Some (cloneContents C
                (setEndAfter C domRange (toDOMNode C e voidNode)))
    | None => None
    end in
  let attach :=
    chooseAttach first second (bool_decide (is_Some startVoid)) in
  attachFragment (createdDisplay C "SPAN") (default first second)
    attach encoded.

(** Set the currently selected fragment to the clipboard. *)
Definition setFragmentData : M unit :=
  e ← gets editor;
  match selection e with
  | None => skip
  | Some sel =>
      let '(start, end_) := Range_edges sel in
      startVoid ← orThrow (Editor_void e (AtPath (path start)));
      endVoid ← orThrow (Editor_void e (AtPath (path end_)));
      if Range_isCollapsed sel && negb (bool_decide (is_Some startVoid))
      then skip
      else
        let fragment := Node_fragment C e sel in
        let encoded := encodeFragment C fragment in
        contents ← orThrow (prepareClone e sel startVoid endVoid encoded);
        _ ← setData "application/x-slate-fragment" encoded;
        let div := DElement "DIV" ∅ (createdDisplay C "DIV") contents in
        _ ← setData "text/html" (innerHTML C contents);
        setData "text/plain" (getPlainText div)
  end.

End WithCollaborators.

End Utils.

(** ** The [Editable] component *)

Module Editable.
Import Slate DOM Runtime Utils.

Section WithCollaborators.
Context (C : Collaborators).

(** [ReactEditor.toDOMNode(editor, editor)] *)
Definition editorElement (e : Editor) : DOMRef := toDOMNode C e EditorNode.

(** A target handed to the registry as a DOM node. *)
Definition asDOMNode (t : option EventTarget) : M DOMRef :=
  match t with
  | Some (TargetNode n) => mret n
  | _ => throw
  end.

Definition select (r : Range) : M unit :=
  _ ← emit (Select r);
  modify (with_editor (λ e, Transforms_select e r)).

Definition deselect : M unit :=
  _ ← emit Deselect;
  modify (with_editor Transforms_deselect).

Definition deleteFragment : M unit :=
  _ ← emit DeleteFragment;
  modify (with_editor (Editor_deleteFragment C)).

Definition preventDefault : M unit := emit PreventDefault.

Definition setUpdatingSelection (b : bool) : M unit :=
  modify (with_state (λ s, mkHookState (isComposing s) b (latestElement s))).

Definition setLatestElement (a : option DOMRef) : M unit :=
  modify (with_state
            (λ s, mkHookState (isComposing s) (isUpdatingSelection s) a)).

(** [domSelection.removeAllRanges()] *)
Definition removeAllRanges : M unit :=
  _ ← emit RemoveAllRanges;
  modify (λ w, with_domSelection
                 (const (mkDOMSelection None) <$> domSelection w) w).

(** [domSelection.addRange(range)]: a selection that holds a range
    already keeps it. *)
Definition addRange (r : DOMRange) : M unit :=
  _ ← emit (AddRange r);
  modify (λ w, with_domSelection
                 ((λ s, match rangeAt0 s with
                        | Some _ => s
                        | None => mkDOMSelection (Some r)
                        end) <$> domSelection w) w).

(** [el.focus()] *)
Definition focusElement (el : DOMRef) : M unit :=
  _ ← emit (FocusElement el);
  modify (with_activeElement (Some el)).

(** Whenever the editor updates, make sure the DOM selection state is
    in sync. *)
Definition syncSelection : M unit :=
  e ← gets editor;
  domSelection ← gets domSelection;
  st ← gets state;
  focused ← gets IS_FOCUSED;
  match domSelection with
  | None => skip
  | Some domSel =>
      if isComposing st || negb focused then skip
      else
        let hasDomSelection := hasRange domSel in
        if negb (bool_decide (is_Some (selection e)))
           && negb hasDomSelection
        then skip
        else
          let newDomRange := toDOMRange C e <$> selection e in
          if match rangeAt0 domSel, newDomRange with
             | Some current, Some new => isRangeEqual current new
             | _, _ => false
             end
          then skip
          else
            let el := editorElement e in
            _ ← setUpdatingSelection true;
            _ ← removeAllRanges;
            _ ← match newDomRange with
                | Some r =>
                    _ ← addRange r;
                    emit (ScrollIntoView (parentElement C (startContainer r)))
                | None => skip
                end;
            modify (with_timeouts
                      (λ ts, ts ++ [mkTimeout
                                      (if bool_decide (is_Some newDomRange)
                                          && IS_FIREFOX C
                                       then Some el else None)]))
  end.

(** The callback of the effect's [setTimeout]. *)
Definition runTimeout (t : Timeout) : M unit :=
  _ ← match refocus t with
      | Some el => focusElement el
      | None => skip
      end;
  setUpdatingSelection false.

(** The next macrotask: the pending callbacks run in order. *)
Definition flushTimeouts : M unit :=
  ts ← gets timeouts;
  _ ← modify (with_timeouts (const []));
  foldr (λ t k, _ ← runTimeout t; k) skip ts.

(** The worlds on which the effect has nothing to do: no native
    selection object, a composition, no focus, no selection on either
    side, or the native range already the projected one. *)
Definition settled (w : World) : bool :=
  match domSelection w with
  | None => true
  | Some domSel =>
      isComposing (state w) || negb (IS_FOCUSED w)
      || negb (bool_decide (is_Some (selection (editor w))))
         && negb (hasRange domSel)
      || match rangeAt0 domSel,
               toDOMRange C (editor w) <$> selection (editor w) with
         | Some current, Some new => isRangeEqual current new
         | _, _ => false
         end
  end.

(** The body of the debounced [selectionchange] listener.  [readOnly]
    is the variable of the closure. *)
Definition onDOMSelectionChange (readOnly : bool) : M unit :=
  st ← gets state;
  if negb readOnly && negb (isComposing st)
     && negb (isUpdatingSelection st)
  then
    activeElement ← gets activeElement;
    e ← gets editor;
    let el := editorElement e in
    domSelection ← gets domSelection;
    let domRange := domSelection ≫= rangeAt0 in
    _ ← (if bool_decide (activeElement = Some el) then
           _ ← setLatestElement activeElement;
           modify (with_IS_FOCUSED true)
         else modify (with_IS_FOCUSED false));
    match domRange with
    | Some r =>
        if hasEditableTarget C e (Some (TargetNode (startContainer r)))
           && hasEditableTarget C e (Some (TargetNode (endContainer r)))
        then select (toSlateRange C e r)
        else deselect
    | None => deselect
    end
  else skip.

(** [useCallback(f, [])]: the callback of the first render is kept. *)
Definition useCallback_noDeps {A} (memo : option A) (f : A) : A :=
  default f memo.

(** [placeholder &&]: a string that is there and not empty. *)
Definition truthy (s : option JSString) : bool :=
  match s with Some (_ :: _) => true | _ => false end.

(** [decorations.push(d)] on the array at a reference. *)
Definition push (array : nat) (d : Decoration) : M unit :=
  modify (with_arrays (alter (λ a, a ++ [d]) array)).

(** What a render leaves for later: the [selectionchange] listener (the
    one the layout effect registers at the first render), and the
    array of decorations handed to the children. *)
Record Rendered := mkRendered {
  listener : M unit;
  decorations : nat;
}.

(** One render of the component, up to the decorations. *)
Definition render (props : EditableProps) (memo : option (M unit))
  : M Rendered :=
  _ ← modify (with_IS_READ_ONLY (readOnly props));
  let onDOMSelectionChange :=
    useCallback_noDeps memo (onDOMSelectionChange (readOnly props)) in
  decorations ← default defaultDecorate (decorate props) [];
  e ← gets editor;
  _ ← (if truthy (placeholder props)
          && bool_decide (length (children e) = 1)
          && bool_decide (length (Node_texts e) = 1)
          && bool_decide (Node_string e = [])
       then
         start ← orThrow (Editor_start e (AtPath []));
         push decorations
           (mkDecoration start start true (placeholder props))
       else skip);
  mret (mkRendered onDOMSelectionChange decorations).

Definition onBlur (props : EditableProps) (event : SyntheticEvent)
  : M unit :=
  st ← gets state;
  e ← gets editor;
  if readOnly props || isUpdatingSelection st
     || negb (hasEditableTarget C e (target event))
  then skip
  else
    handled ← isEventHandled event (onBlur props);
    if (handled : bool) then skip
    else
      st ← gets state;
      activeElement ← gets activeElement;
      if bool_decide (latestElement st = activeElement) then skip
      else
        e ← gets editor;
        let el := editorElement e in
        match relatedTarget event with
        | Some (TargetNode rt) =>
            if bool_decide (rt = el) then skip
            else if isLiveElement C rt
                    && liveHasAttribute C rt "data-slate-spacer"
            then skip
            else if hasDOMNode C e rt false
                    && match toSlateNode C e rt with
                       | Desc (Element k cs) => negb (isVoid e (Element k cs))
                       | _ => false
                       end
            then skip
            else modify (with_IS_FOCUSED false)
        | _ => modify (with_IS_FOCUSED false)
        end.

Definition onClick (props : EditableProps) (event : SyntheticEvent)
  : M unit :=
  e ← gets editor;
  if negb (readOnly props) && hasTarget C e (target event)
  then
    handled ← isEventHandled event (onClick props);
    if (handled : bool) then skip
    else
      e ← gets editor;
      t ← asDOMNode (target event);
      let node := toSlateNode C e t in
      let path := findPath C e node in
      start ← orThrow (Editor_start e (AtPath path));
      inVoid ← orThrow (Editor_void e (AtPoint start));
      if bool_decide (is_Some inVoid) then
        range ← orThrow (Editor_range e (AtPoint start));
        select range
      else skip
  else skip.

Definition onCopy (props : EditableProps) (event : SyntheticEvent)
  : M unit :=
  e ← gets editor;
  if hasEditableTarget C e (target event)
  then
    handled ← isEventHandled event (onCopy props);
    if (handled : bool) then skip
    else
      _ ← preventDefault;
      setFragmentData C
  else skip.

Definition onCut (props : EditableProps) (event : SyntheticEvent)
  : M unit :=
  e ← gets editor;
  if negb (readOnly props) && hasEditableTarget C e (target event)
  then
    handled ← isEventHandled event (onCut props);
    if (handled : bool) then skip
    else
      _ ← preventDefault;
      _ ← setFragmentData C;
      e ← gets editor;
      match selection e with
      | Some sel =>
          if Range_isExpanded sel then deleteFragment else skip
      | None => skip
      end
  else skip.

Definition onDragOver (props : EditableProps) (event : SyntheticEvent)
  : M unit :=
  e ← gets editor;
  if hasTarget C e (target event)
  then
    handled ← isEventHandled event (onDragOver props);
    if (handled : bool) then skip
    else
      e ← gets editor;
      t ← asDOMNode (target event);
      let node := toSlateNode C e t in
      if Editor_isVoid e node then preventDefault else skip
  else skip.

Definition onDragStart (props : EditableProps) (event : SyntheticEvent)
  : M unit :=
  e ← gets editor;
  if hasTarget C e (target event)
  then
    handled ← isEventHandled event (onDragStart props);
    if (handled : bool) then skip
    else
      e ← gets editor;
      t ← asDOMNode (target event);
      let node := toSlateNode C e t in
      let path := findPath C e node in
      voidMatch ← orThrow (Editor_void e (AtPath path));
      _ ← (if bool_decide (is_Some voidMatch) then
             range ← orThrow (Editor_range e (AtPath path));
             select range
           else skip);
      setFragmentData C
  else skip.

Definition onFocus (props : EditableProps) (event : SyntheticEvent)
  : M unit :=
  st ← gets state;
  e ← gets editor;
  if negb (readOnly props) && negb (isUpdatingSelection st)
     && hasEditableTarget C e (target event)
  then
    handled ← isEventHandled event (onFocus props);
    if (handled : bool) then skip
    else
      e ← gets editor;
      let el := editorElement e in
      activeElement ← gets activeElement;
      _ ← setLatestElement activeElement;
      if IS_FIREFOX C && negb (bool_decide (target event = Some (TargetNode el)))
      then focusElement el
      else modify (with_IS_FOCUSED true)
  else skip.

End WithCollaborators.

End Editable.

(** ** A sample editor

    A paragraph with the text "ab" followed by a void image, rendered as
    - 0: the editor element,
    - 1: the paragraph, 2: its leaf, 3: the DOM text "ab",
    - 10: the image, 11: its spacer, 12: the DOM text of the spacer,
      13: the picture the image renders. *)

Module Sample.
Import Slate DOM Runtime Utils.

Definition paragraph : Descendant := Element "paragraph" [Text (lit "ab")].
Definition image : Descendant := Element "image" [Text []].

Definition isImage (d : Descendant) : bool :=
  match d with
  | Element k _ => bool_decide (k = "image")
  | Text _ => false
  end.

Definition document (sel : option Range) : Editor :=
  mkEditor [paragraph; image] sel isImage.

Definition at_ (p : Path) (o : nat) : Point := mkPoint p o.
Definition caret (p : Path) (o : nat) : Range := mkRange (at_ p o) (at_ p o).

Definition nodeOf (e : Editor) (n : DOMRef) : Node :=
  if bool_decide (n = 0) then EditorNode
  else if bool_decide (n ∈ [1; 2; 3]) then
         from_option Desc EditorNode (children e !! 0)
  else if bool_decide (n ∈ [10; 13]) then
         from_option Desc EditorNode (children e !! 1)
  else Desc (Text []).

Definition pathOf (e : Editor) (n : Node) : Path :=
  match n with
  | EditorNode => []
  | Desc (Element k _) => if bool_decide (k = "image") then [1] else [0]
  | Desc (Text []) => [1; 0]
  | Desc (Text (_ :: _)) => [0; 0]
  end.

Definition refOf (e : Editor) (n : Node) : DOMRef :=
  match n with
  | EditorNode => 0
  | Desc (Element k _) => if bool_decide (k = "image") then 10 else 1
  | Desc (Text []) => 12
  | Desc (Text (_ :: _)) => 3
  end.

Definition textRef (p : Path) : DOMRef :=
  if bool_decide (p = [1; 0]) then 12 else 3.

Definition domRangeOf (e : Editor) (r : Range) : DOMRange :=
  let '(s, f) := Range_edges r in
  mkDOMRange (textRef (path s)) (offset s) (textRef (path f)) (offset f).

Definition slateRangeOf (e : Editor) (r : DOMRange) : Range :=
  let point c o := mkPoint (if bool_decide (c = 12) then [1; 0] else [0; 0]) o in
  mkRange (point (startContainer r) (startOffset r))
          (point (endContainer r) (endOffset r)).

(** The markup of the two blocks. *)
Definition leafMarkup (t : JSString) : DOMNode :=
  DElement "SPAN" {[ "data-slate-leaf" := lit "true" ]} "inline" [DText t].

Definition paragraphMarkup (t : JSString) : DOMNode :=
  DElement "DIV" {[ "data-slate-node" := lit "element" ]} "block"
    [leafMarkup t].

Definition spacerMarkup : DOMNode :=
  DElement "DIV" {[ "data-slate-spacer" := lit "true" ]} "block"
    [DElement "SPAN" {[ "data-slate-zero-width" := lit "z" ]} "inline"
       [DText [65279%N]]].

Definition imageMarkup : DOMNode :=
  DElement "DIV" {[ "data-slate-void" := lit "true" ]} "block"
    [spacerMarkup; DElement "IMG" ∅ "inline" []].

(** A range inside the DOM text "ab" clones to the text between its
    offsets; a range that reaches the image clones to both blocks; a
    collapsed range to nothing. *)
Definition cloneOf (r : DOMRange) : list DOMNode :=
  if bool_decide (startContainer r = endContainer r) then
    if bool_decide (startOffset r = endOffset r) then []
    else [DText (take (endOffset r - startOffset r)
                   (drop (startOffset r) (lit "ab")))]
  else if bool_decide (endContainer r = 10) then
    if bool_decide (startContainer r = 12) then [imageMarkup]
    else [paragraphMarkup (drop (startOffset r) (lit "ab")); imageMarkup]
  else [paragraphMarkup (drop (startOffset r) (lit "ab")); spacerMarkup].

Definition endAfter (r : DOMRange) (n : DOMRef) : DOMRange :=
  mkDOMRange (startContainer r) (startOffset r) n 1.

Definition removeSelected (e : Editor) : Editor :=
  mkEditor [Element "paragraph" [Text []]] (Some (caret [0; 0] 0)) (isVoid e).

Definition collaborators (firefox : bool) : Collaborators :=
  {| hasDOMNode := λ _ n editable,
       if editable then bool_decide (n ∈ [0; 1; 2; 3; 10; 11; 12])
       else bool_decide (n ∈ [0; 1; 2; 3; 10; 11; 12; 13]);
     toSlateNode := nodeOf;
     findPath := pathOf;
     toDOMNode := refOf;
     toDOMRange := domRangeOf;
     toSlateRange := slateRangeOf;
     Node_fragment := λ e _, children e;
     Editor_deleteFragment := removeSelected;
     cloneContents := cloneOf;
     setEndAfter := endAfter;
     parentElement := λ n, n - 1;
     isLiveElement := λ n, negb (bool_decide (n ∈ [3; 12]));
     liveHasAttribute := λ n a,
       bool_decide (n = 11) && bool_decide (a = "data-slate-spacer");
     innerHTML := λ ns, concat (textContent <$> ns);
     createdDisplay := λ _, "";
     encodeFragment := λ ns, concat (string_from <$> ns);
     IS_FIREFOX := firefox |}.

Definition idle : HookState := mkHookState false false None.

(** A focused editor with a selection and a native selection. *)
Definition world (sel : option Range) (native : option DOMRange) : World :=
  mkWorld (document sel) idle true false
    (Some (mkDOMSelection native)) (Some 0) ∅ [] [] [].

(** A document with one empty leaf, the same after a character was
    typed, and a world around a document and the arrays of the caller. *)
Definition emptyDocument : Editor :=
  mkEditor [Element "paragraph" [Text []]] None isImage.

Definition typedDocument : Editor :=
  mkEditor [Element "paragraph" [Text (lit "a")]] None isImage.

Definition around (e : Editor) (arrays : list (list Decoration)) : World :=
  mkWorld e idle true false (Some (mkDOMSelection None)) (Some 0) ∅
    arrays [] [].

Definition props (ro : bool) (ph : option JSString)
    (dec : option (Path → M nat)) : EditableProps :=
  mkProps dec ph ro None None None None None None None.

Definition event (t : DOMRef) : SyntheticEvent :=
  mkEvent (Some (TargetNode t)) None false false.

End Sample.

(** ** Predicates the properties are stated with *)

Module Claims.
Import Slate DOM Runtime Utils.

(** Nothing to copy: no selection, or a collapsed one whose start has no
    void node above it. *)
Definition nothingToCopy (e : Editor) : Prop :=
  match selection e with
  | None => True
  | Some sel =>
      Range_isCollapsed sel = true
      ∧ Editor_void e (AtPath (path (Range_edges sel).1)) = Some None
  end.

(** The first node of the clone, in document order, whose text is not
    blank: what the claim about the attach node names. *)
Fixpoint firstNonBlankIn (n : DOMNode) : option (list nat) :=
  if nonBlank n then Some []
  else
    match n with
    | DElement _ _ _ cs => queryFrom firstNonBlankIn cs 0
    | _ => None
    end.

Definition firstNonBlankDescendant (ns : list DOMNode)
  : option (list nat) :=
  queryFrom firstNonBlankIn ns 0.

(** Document order on paths: an ancestor comes before its descendants,
    an earlier sibling's subtree before a later sibling's. *)
Fixpoint before (q p : list nat) : Prop :=
  match q, p with
  | [], _ :: _ => True
  | i :: q', j :: p' => i < j ∨ (i = j ∧ before q' p')
  | _, [] => False
  end.


(** Every element has a child: with it, every node has a text below it
    and a start point. *)
Fixpoint wellFormed (d : Descendant) : bool :=
  match d with
  | Text _ => true
  | Element _ cs =>
      match cs with [] => false | _ :: _ => forallb wellFormed cs end
  end.

Definition leafText (entry : Descendant * Path) : JSString :=
  match entry.1 with Text t => t | Element _ _ => [] end.

Definition textOf (l : list (Descendant * Path)) : JSString :=
  concat (leafText <$> l).

(** The document consists of exactly one text leaf, and it is empty. *)
Definition soleEmptyLeaf (e : Editor) (p : Path) : Prop :=
  Node_texts e = [(Text [], p)].

(** The decorations that carry the placeholder marker. *)
Definition placeholders (ds : list Decoration) : list Decoration :=
  filter (λ d, dec_marker d = true) ds.

(** The three entries of the transfer object. *)
Definition entries (encoded html plain : JSString) : list Action :=
  [SetData "application/x-slate-fragment" encoded;
   SetData "text/html" html;
   SetData "text/plain" plain].

End Claims.

(** ** Predicates the further properties are stated with *)

Module Laws.
Import Slate DOM Runtime Utils Editable.

(** A range with its two ends exchanged. *)
Definition flipped (r : DOMRange) : DOMRange :=
  mkDOMRange (endContainer r) (endOffset r) (startContainer r) (startOffset r).

(** The elements after whose text [getPlainText] puts a newline. *)
Definition breaksLine (tagName display : string) : bool :=
  bool_decide (display = "block") || bool_decide (display = "list")
  || bool_decide (tagName = "BR").

(** How many such elements a piece of markup holds. *)
Fixpoint lineBreaks (n : DOMNode) : nat :=
  match n with
  | DElement tagName _ display cs =>
      (if breaksLine tagName display then 1 else 0)
      + sum_list (lineBreaks <$> cs)
  | _ => 0
  end.

(** Markup without comment nodes. *)
Fixpoint noComment (n : DOMNode) : bool :=
  match n with
  | DText _ => true
  | DElement _ _ _ cs => forallb noComment cs
  | DComment _ => false
  end.

(** Whether some element of a piece of markup carries an attribute. *)
Fixpoint carries (name : string) (n : DOMNode) : bool :=
  match n with
  | DElement _ attrs _ cs =>
      bool_decide (is_Some (attrs !! name)) || existsb (carries name) cs
  | _ => false
  end.


(** The updatingSelection flag is set only while a deferred callback is
    pending to clear it. *)
Definition latched (w : World) : Prop :=
  isUpdatingSelection (state w) = true → timeouts w ≠ [].

(** An override of the caller that prevents the default. *)
Definition preventing : Override :=
  λ event, mret (mkEvent (target event) (relatedTarget event) true
                   (propagationStopped event)).

(** Props whose every handler is that override. *)
Definition overridden (readOnly : bool) : EditableProps :=
  mkProps None None readOnly (Some preventing) (Some preventing)
    (Some preventing) (Some preventing) (Some preventing) (Some preventing)
    (Some preventing).

(** The writes of the native selection among the actions of a trace. *)
Definition writesNativeSelection (a : Action) : bool :=
  match a with
  | RemoveAllRanges | AddRange _ => true
  | _ => false
  end.

Definition nativeWrites (t : list Action) : list Action :=
  filter writesNativeSelection t.

(** A step that leaves the native selection as it was and asks the
    platform for no change of it. *)
Definition untouched (w w' : World) : Prop :=
  domSelection w' = domSelection w
  ∧ ∃ t, trace w' = trace w ++ t ∧ nativeWrites t = [].

End Laws.

(** * Properties *)

Import Slate DOM Runtime Utils Editable Claims.

(** ** Plain text of the cloned markup *)

Lemma foldl_append {A} (f : A → JSString) (cs : list A) (acc : JSString) :
  foldl (λ text c, text ++ f c) acc cs = acc ++ concat (f <$> cs).
Proof.
  revert acc. induction cs as [|c cs IH]; intros acc; simpl.
  - by rewrite app_nil_r.
  - by rewrite IH, app_assoc.
Qed.


(** ** Outbound selection sync *)

Lemma isRangeEqual_refl (r : DOMRange) : isRangeEqual r r = true.
Proof.
  unfold isRangeEqual. repeat case_bool_decide; done.
Qed.

Lemma emitted_app (w w' : World) (t : list Action) :
  trace w' = trace w ++ t → emitted w w' = t.
Proof.
  intros H. unfold emitted. rewrite H. by rewrite drop_app_length.
Qed.

Lemma emitted_same (w : World) : emitted w w = [].
Proof. apply emitted_app. by rewrite app_nil_r. Qed.

Ltac run :=
  cbv [syncSelection flushTimeouts runTimeout onDOMSelectionChange
       select deselect deleteFragment preventDefault removeAllRanges addRange
       focusElement setUpdatingSelection setLatestElement setData push
       isEventHandled asDOMNode orThrow skip
       emit modify gets throw mbind mret M_bind M_ret finalWorld].

Lemma settled_noop (C : Collaborators) (w : World) :
  settled C w = true → syncSelection C w = Returned () w.
Proof.
  destruct w as [[cs sel iv] [cmp upd le] foc ro ds ae dt arr tos tr].
  unfold settled. cbn. destruct ds as [[native]|]; [|reflexivity].
  destruct cmp; [reflexivity|]. destruct foc; [|reflexivity].
  destruct sel as [sel|], native as [r|]; run; cbn; try done.
  by intros ->.
Qed.

(** One pass leaves the world settled. *)
Lemma settled_after (C : Collaborators) (w : World) :
  settled C (finalWorld (syncSelection C w)) = true.
Proof.
  destruct w as [[cs sel iv] [cmp upd le] foc ro ds ae dt arr tos tr].
  destruct ds as [[native]|]; [|reflexivity].
  destruct cmp; [reflexivity|]. destruct foc; [|reflexivity].
  destruct sel as [sel|], native as [r|]; run; unfold settled; cbn.
  - destruct (isRangeEqual r _) eqn:E; cbn; [by rewrite E|].
    by rewrite isRangeEqual_refl.
  - by rewrite isRangeEqual_refl.
  - reflexivity.
  - reflexivity.
Qed.

(** The deferred callbacks touch neither the model, nor the native
    selection, nor the composing and focused flags. *)
Lemma runTimeouts_frame (ts : list Timeout) (w : World) :
  let w' := finalWorld (foldr (λ t k, _ ← runTimeout t; k) skip ts w) in
  editor w' = editor w ∧ domSelection w' = domSelection w
  ∧ isComposing (state w') = isComposing (state w)
  ∧ IS_FOCUSED w' = IS_FOCUSED w.
Proof.
  revert w. induction ts as [|[[el|]] ts IH]; intros w; [done| |].
  - specialize (IH (with_state
                      (λ s, mkHookState (isComposing s) false (latestElement s))
                      (with_activeElement (Some el)
                         (with_trace (λ t, t ++ [FocusElement el]) w)))).
    cbv zeta in IH. exact IH.
  - specialize (IH (with_state
                      (λ s, mkHookState (isComposing s) false (latestElement s))
                      w)).
    cbv zeta in IH. exact IH.
Qed.

Lemma flushTimeouts_settled (C : Collaborators) (w : World) :
  settled C w = true → settled C (finalWorld (flushTimeouts w)) = true.
Proof.
  intros H.
  pose proof (runTimeouts_frame (timeouts w) (with_timeouts (const []) w))
    as (He & Hd & Hc & Hf).
  unfold settled in *.
  change (finalWorld (flushTimeouts w)) with
    (finalWorld (foldr (λ t k, _ ← runTimeout t; k) skip (timeouts w)
                   (with_timeouts (const []) w))).
  by rewrite He, Hd, Hc, Hf.
Qed.

(** What one pass asks of the platform: nothing, or one write of the
    native selection (it is cleared, and the projected range, if there
    is one, installed and scrolled to). *)
Lemma syncSelection_emits (C : Collaborators) (w : World) :
  let w1 := finalWorld (syncSelection C w) in
  emitted w w1 = []
  ∨ emitted w w1 = [RemoveAllRanges]
  ∨ ∃ r, emitted w w1 =
         [RemoveAllRanges; AddRange r;
          ScrollIntoView (parentElement C (startContainer r))].
Proof.
  destruct w as [[cs sel iv] [cmp upd le] foc ro ds ae dt arr tos tr].
  destruct ds as [[native]|]; [|left; exact (emitted_same _)].
  destruct cmp; [left; exact (emitted_same _)|].
  destruct foc; [|left; exact (emitted_same _)].
  destruct sel as [sel|], native as [r|]; run; cbn.
  - destruct (isRangeEqual r _) eqn:E; cbn; [left; exact (emitted_same _)|].
    right; right. eexists. apply emitted_app. cbn. by rewrite <- !app_assoc.
  - right; right. eexists. apply emitted_app. cbn. by rewrite <- !app_assoc.
  - right; left. apply emitted_app. done.
  - left. exact (emitted_same _).
Qed.

(** C1: a pass of the outbound sync that finds the native selection
    holding a range undirected-equal to the projection of the logical
    selection returns with the world as it was, so without a write of the
    native selection; and two passes in succession, with or without the
    deferred callback in between, make at most one write, the second pass
    doing nothing. *)
Theorem syncSelection_idempotent (C : Collaborators) (w : World) :
  (∀ domSel r sel,
     domSelection w = Some domSel →
     rangeAt0 domSel = Some r →
     selection (editor w) = Some sel →
     isRangeEqual r (toDOMRange C (editor w) sel) = true →
     syncSelection C w = Returned () w)
  ∧
  (let w1 := finalWorld (syncSelection C w) in
   let w1' := finalWorld (flushTimeouts w1) in
   syncSelection C w1 = Returned () w1
   ∧ syncSelection C w1' = Returned () w1'
   ∧ (emitted w w1 = []
      ∨ emitted w w1 = [RemoveAllRanges]
      ∨ ∃ r, emitted w w1 =
             [RemoveAllRanges; AddRange r;
              ScrollIntoView (parentElement C (startContainer r))])).
Proof.
  split.
  - intros domSel r sel Hd Hr Hs Heq.
    destruct w as [[cs sel' iv] [cmp upd le] foc ro ds ae dt arr tos tr].
    simpl in *. subst. destruct domSel as [native]. simpl in *. subst.
    run; cbn. destruct cmp; [done|]. destruct foc; [|done]. cbn.
    by rewrite Heq.
  - cbv zeta. split; [apply settled_noop, settled_after|].
    split; [|apply syncSelection_emits].
    apply settled_noop, flushTimeouts_settled, settled_after.
Qed.
Lemma syncSelection_idempotent_witness :
  let C := Sample.collaborators false in
  let w := Sample.world (Some (mkRange (Sample.at_ [0; 0] 2) (Sample.at_ [0; 0] 0)))
             (Some (mkDOMRange 3 2 3 0)) in
  syncSelection C w = Returned () w.
Proof.
  cbv zeta.
  apply (proj1 (syncSelection_idempotent _ _)
           (mkDOMSelection (Some (mkDOMRange 3 2 3 0))) (mkDOMRange 3 2 3 0)
           (mkRange (Sample.at_ [0; 0] 2) (Sample.at_ [0; 0] 0)));
    reflexivity.
Defined.


(** ** The clipboard codec *)

Lemma Point_equals_eq (a b : Point) : Point_equals a b = true → a = b.
Proof.
  destruct a, b. unfold Point_equals. simpl.
  intros [H1 H2]%andb_true_iff.
  apply bool_decide_eq_true in H1, H2. by subst.
Qed.

Lemma Path_compare_refl (p : Path) : Path_compare p p = 0%Z.
Proof.
  induction p as [|i p IH]; [done|]. simpl.
  repeat case_decide; try lia; done.
Qed.

Lemma Range_edges_collapsed (r : Range) :
  Range_isCollapsed r = true → Range_edges r = (anchor r, anchor r).
Proof.
  intros H%Point_equals_eq. unfold Range_edges, Range_isBackward, Point_isAfter.
  rewrite <- H. unfold Point_compare. rewrite Path_compare_refl.
  rewrite decide_True by done.
  repeat case_decide; try lia; by rewrite bool_decide_eq_false_2.
Qed.

(** The lookups and the clone of a selection with something to copy. *)
Lemma setFragmentData_run (C : Collaborators) (w : World) (sel : Range)
    (sv ev : option (Node * Path)) (contents : list DOMNode) :
  let e := editor w in
  let encoded := encodeFragment C (Node_fragment C e sel) in
  selection e = Some sel →
  Editor_void e (AtPath (path (Range_edges sel).1)) = Some sv →
  Editor_void e (AtPath (path (Range_edges sel).2)) = Some ev →
  Range_isCollapsed sel && negb (bool_decide (is_Some sv)) = false →
  prepareClone C e sel sv ev encoded = Some contents →
  setFragmentData C w =
  Returned ()
    (with_trace
       (λ t, t ++ entries encoded (innerHTML C contents)
                    (getPlainText
                       (DElement "DIV" ∅ (createdDisplay C "DIV") contents)))
       (with_dataTransfer
          (λ dt, <["text/plain" :=
                     getPlainText
                       (DElement "DIV" ∅ (createdDisplay C "DIV") contents)]>
                   (<["text/html" := innerHTML C contents]>
                      (<["application/x-slate-fragment" := encoded]> dt)))
          w)).
Proof.
  intros e encoded Hsel Hsv Hev Hc Hp.
  unfold setFragmentData. run. fold e. rewrite Hsel.
  destruct (Range_edges sel) as [s f]. simpl in Hsv, Hev.
  rewrite Hsv, Hev. cbn. rewrite Hc. fold encoded. rewrite Hp.
  destruct w. unfold with_trace, with_dataTransfer, entries.
  cbn [editor state IS_FOCUSED IS_READ_ONLY domSelection activeElement
       dataTransfer arrays timeouts trace].
  by rewrite <- !app_assoc.
Qed.

Lemma emitted_transfer (w : World) (t : list Action)
    (f : gmap string JSString → gmap string JSString) :
  emitted w (with_trace (λ t0, t0 ++ t) (with_dataTransfer f w)) = t.
Proof. apply emitted_app. by destruct w. Qed.

Lemma something_to_copy (e : Editor) (sel : Range) (sv : option (Node * Path)) :
  selection e = Some sel →
  Editor_void e (AtPath (path (Range_edges sel).1)) = Some sv →
  ¬ nothingToCopy e →
  Range_isCollapsed sel && negb (bool_decide (is_Some sv)) = false.
Proof.
  intros Hsel Hsv Hn. apply not_true_is_false. intros [Hc Hv]%andb_true_iff.
  apply Hn. unfold nothingToCopy. rewrite Hsel. split; [done|].
  rewrite Hsv. destruct sv; [|done].
  rewrite bool_decide_eq_true_2 in Hv by eauto. done.
Qed.

(** A run that returns without an entry had nothing to copy. *)
Lemma setFragmentData_silent (C : Collaborators) (w w' : World) :
  setFragmentData C w = Returned () w' →
  emitted w w' = [] → nothingToCopy (editor w).
Proof.
  intros Hrun Hnone.
  destruct (selection (editor w)) as [sel|] eqn:Hsel;
    [|by unfold nothingToCopy; rewrite Hsel].
  destruct (Editor_void (editor w) (AtPath (path (Range_edges sel).1)))
    as [sv|] eqn:Hsv; cycle 1.
  { revert Hrun. unfold setFragmentData. run. rewrite Hsel.
    destruct (Range_edges sel). simpl in Hsv. by rewrite Hsv. }
  destruct (Editor_void (editor w) (AtPath (path (Range_edges sel).2)))
    as [ev|] eqn:Hev; cycle 1.
  { revert Hrun. unfold setFragmentData. run. rewrite Hsel.
    destruct (Range_edges sel). simpl in Hsv, Hev. by rewrite Hsv, Hev. }
  destruct (Range_isCollapsed sel && negb (bool_decide (is_Some sv)))
    eqn:Hc.
  { apply andb_true_iff in Hc as [Hc Hv]. unfold nothingToCopy.
    rewrite Hsel. split; [done|]. rewrite Hsv. destruct sv; [|done].
    by rewrite bool_decide_eq_true_2 in Hv by eauto. }
  destruct (prepareClone C (editor w) sel sv ev
              (encodeFragment C (Node_fragment C (editor w) sel)))
    as [contents|] eqn:Hp.
  - rewrite (setFragmentData_run C w sel sv ev contents Hsel Hsv Hev Hc Hp)
      in Hrun.
    injection Hrun as <-. by rewrite emitted_transfer in Hnone.
  - revert Hrun. unfold setFragmentData. run. rewrite Hsel.
    destruct (Range_edges sel). simpl in Hsv, Hev, Hc.
    rewrite Hsv, Hev. cbn. rewrite Hc, Hp. done.
Qed.

(** C3: the write path of the codec returns without having written
    anything exactly when there is no selection, or a collapsed one whose
    start is not inside a void node; for every other selection, its clone
    having a node to attach to, it writes the three entries (encoded
    fragment, markup, plain text). *)
Theorem setFragmentData_entries (C : Collaborators) (w : World) :
  let e := editor w in
  (nothingToCopy e → setFragmentData C w = Returned () w)
  ∧ (∀ w', setFragmentData C w = Returned () w' →
           emitted w w' = [] → nothingToCopy e)
  ∧ (∀ sel sv ev contents,
       let encoded := encodeFragment C (Node_fragment C e sel) in
       let html := innerHTML C contents in
       let plain :=
         getPlainText (DElement "DIV" ∅ (createdDisplay C "DIV") contents) in
       selection e = Some sel →
       Editor_void e (AtPath (path (Range_edges sel).1)) = Some sv →
       Editor_void e (AtPath (path (Range_edges sel).2)) = Some ev →
       ¬ nothingToCopy e →
       prepareClone C e sel sv ev encoded = Some contents →
       ∃ w', setFragmentData C w = Returned () w'
             ∧ emitted w w' = entries encoded html plain
             ∧ dataTransfer w' !! "application/x-slate-fragment" = Some encoded
             ∧ dataTransfer w' !! "text/html" = Some html
             ∧ dataTransfer w' !! "text/plain" = Some plain).
Proof.
  cbv zeta. split; [|split].
  - unfold nothingToCopy, setFragmentData. run.
    destruct (selection (editor w)) as [sel|]; [|done].
    intros [Hc Hv]. rewrite (Range_edges_collapsed _ Hc) in *.
    simpl in *. rewrite Hv. cbn. by rewrite Hc.
  - apply setFragmentData_silent.
  - intros sel sv ev contents Hsel Hsv Hev Hn Hp.
    pose proof (something_to_copy _ _ _ Hsel Hsv Hn) as Hc.
    eexists. split; [by apply (setFragmentData_run C w sel sv ev)|].
    split; [apply emitted_transfer|].
    destruct w; cbn. by simplify_map_eq.
Qed.
Lemma setFragmentData_entries_witness :
  let C := Sample.collaborators false in
  let caret := Sample.world (Some (Sample.caret [0; 0] 1)) None in
  let sel := mkRange (Sample.at_ [0; 0] 0) (Sample.at_ [0; 0] 2) in
  let w := Sample.world (Some sel) None in
  setFragmentData C caret = Returned () caret
  ∧ nothingToCopy (editor caret)
  ∧ ∃ w', setFragmentData C w = Returned () w'
          ∧ emitted w w' = entries (lit "ab") (lit "ab") (lit "ab")
          ∧ dataTransfer w' !! "application/x-slate-fragment" = Some (lit "ab")
          ∧ dataTransfer w' !! "text/html" = Some (lit "ab")
          ∧ dataTransfer w' !! "text/plain" = Some (lit "ab").
Proof.
  cbv zeta. split; [|split].
  - apply (proj1 (setFragmentData_entries _ _)). split; reflexivity.
  - apply (proj1 (proj2 (setFragmentData_entries (Sample.collaborators false)
                           (Sample.world (Some (Sample.caret [0; 0] 1)) None)))
             (Sample.world (Some (Sample.caret [0; 0] 1)) None));
      reflexivity.
  - apply (proj2 (proj2 (setFragmentData_entries (Sample.collaborators false)
                           (Sample.world (Some (mkRange (Sample.at_ [0; 0] 0)
                                                  (Sample.at_ [0; 0] 2)))
                              None)))
             (mkRange (Sample.at_ [0; 0] 0) (Sample.at_ [0; 0] 2))
             None None [DElement "SPAN"
                            (<["data-slate-fragment" := lit "ab"]>
                               {[ "style" := lit "white-space: pre;" ]})
                            "" [DText (lit "ab")]]).
    + reflexivity.
    + reflexivity.
    + reflexivity.
    + intros [H _]. discriminate H.
    + reflexivity.
Defined.

(** The write path of the codec touches the transfer object and the
    trace of what was asked, and nothing else, whether it returns or
    throws; what it asks is nothing or the three entries. *)
Lemma setFragmentData_frame (C : Collaborators) (w : World) :
  ∃ dt t, finalWorld (setFragmentData C w)
          = with_trace (λ t0, t0 ++ t) (with_dataTransfer (const dt) w)
          ∧ (t = [] ∨ ∃ a b c, t = entries a b c).
Proof.
  assert (∃ dt t, w = with_trace (λ t0, t0 ++ t) (with_dataTransfer (const dt) w)
                  ∧ (t = [] ∨ ∃ a b c, t = entries a b c)) as Hsame.
  { exists (dataTransfer w), []. split; [|by left].
    destruct w; cbn. unfold with_trace; cbn. by rewrite app_nil_r. }
  unfold setFragmentData. run.
  destruct (selection (editor w)) as [sel|]; [|exact Hsame].
  destruct (Range_edges sel) as [s f].
  destruct (Editor_void (editor w) (AtPath (path s))) as [sv|]; [|exact Hsame].
  destruct (Editor_void (editor w) (AtPath (path f))) as [ev|]; [|exact Hsame].
  destruct (Range_isCollapsed sel && negb (bool_decide (is_Some sv)));
    [exact Hsame|].
  destruct (prepareClone C (editor w) sel sv ev _) as [contents|];
    [|exact Hsame].
  destruct w. eexists _, _. split; [|right; by eexists _, _, _].
  unfold with_trace, with_dataTransfer, entries.
  cbn [editor state IS_FOCUSED IS_READ_ONLY domSelection activeElement
       dataTransfer arrays timeouts trace finalWorld].
  rewrite <- !app_assoc. reflexivity.
Qed.

Lemma entries_not_modelAffecting (t : list Action) :
  t = [] ∨ (∃ a b c, t = entries a b c) → filter modelAffecting t = [].
Proof. by intros [->|(a & b & c & ->)]. Qed.

(** Copy asks nothing of the model. *)
Lemma onCopy_model (C : Collaborators) (props : EditableProps)
    (event : SyntheticEvent) (w : World) :
  Runtime.onCopy props = None →
  let w' := finalWorld (onCopy C props event w) in
  editor w' = editor w ∧ filter modelAffecting (emitted w w') = [].
Proof.
  intros Hnone. cbv zeta.
  cbv [onCopy preventDefault emit modify gets mbind mret M_bind M_ret
       isEventHandled skip].
  rewrite Hnone.
  destruct (hasEditableTarget C (editor w) (target event));
    [|by rewrite emitted_same].
  destruct (setFragmentData_frame C
              (with_trace (λ t, t ++ [PreventDefault]) w))
    as (dt & t & Hw & Ht).
  rewrite Hw. split; [by destruct w|].
  rewrite (emitted_app _ _ ([PreventDefault] ++ t)).
  - rewrite filter_app, (entries_not_modelAffecting t Ht). done.
  - destruct w; cbn. by rewrite <- app_assoc.
Qed.

(** C10: the write path of the codec, and with it a plain copy, leaves the
    logical document and the logical selection as they were, whether it
    returns or throws; beside the transfer object (and the record of what
    was asked) nothing of the world changes. *)
Theorem setFragmentData_preserves_model (C : Collaborators) (w : World) :
  (let w' := finalWorld (setFragmentData C w) in
   children (editor w') = children (editor w)
   ∧ selection (editor w') = selection (editor w)
   ∧ editor w' = editor w
   ∧ state w' = state w
   ∧ IS_FOCUSED w' = IS_FOCUSED w
   ∧ domSelection w' = domSelection w
   ∧ activeElement w' = activeElement w)
  ∧ (∀ props event,
       Runtime.onCopy props = None →
       let w' := finalWorld (onCopy C props event w) in
       editor w' = editor w
       ∧ filter modelAffecting (emitted w w') = []).
Proof.
  split.
  - cbv zeta. destruct (setFragmentData_frame C w) as (dt & t & -> & _).
    by destruct w.
  - intros props event. apply onCopy_model.
Qed.
Lemma setFragmentData_preserves_model_witness :
  let C := Sample.collaborators false in
  let w := Sample.world
             (Some (mkRange (Sample.at_ [0; 0] 0) (Sample.at_ [0; 0] 2))) None in
  let w' := finalWorld (onCopy C (Sample.props true None None)
                          (Sample.event 3) w) in
  editor w' = editor w ∧ filter modelAffecting (emitted w w') = [].
Proof.
  apply (proj2 (setFragmentData_preserves_model _ _)). reflexivity.
Defined.

(** ** Cut *)

Lemma expanded_something_to_copy (e : Editor) (sel : Range) :
  selection e = Some sel → Range_isExpanded sel = true → ¬ nothingToCopy e.
Proof.
  unfold nothingToCopy, Range_isExpanded. intros -> He [Hc _].
  by rewrite Hc in He.
Qed.

(** C6: the cut handler, past its guard (not read-only, an editable
    target, not handled by the caller), first prevents the default, then
    lets the codec write the transfer object, and only then, if and only if
    the logical selection is expanded, asks for the fragment to be deleted.
    With a collapsed selection (at a void node or not) nothing is deleted
    and the document and selection stay as they were. *)
Theorem onCut_writes_then_deletes (C : Collaborators) (props : EditableProps)
    (event : SyntheticEvent) (w w0 w2 : World) :
  readOnly props = false →
  hasEditableTarget C (editor w) (target event) = true →
  isEventHandled event (Runtime.onCut props) w = Returned false w0 →
  setFragmentData C (with_trace (λ t, t ++ [PreventDefault]) w0)
  = Returned () w2 →
  match selection (editor w0) with
  | Some sel =>
      if Range_isExpanded sel then
        ∃ w3 a b c,
          onCut C props event w = Returned () w3
          ∧ emitted w0 w3 = PreventDefault :: entries a b c ++ [DeleteFragment]
          ∧ emitted w0 w2 = PreventDefault :: entries a b c
          ∧ editor w3 = Editor_deleteFragment C (editor w0)
      else
        onCut C props event w = Returned () w2
        ∧ editor w2 = editor w0
        ∧ DeleteFragment ∉ emitted w0 w2
  | None =>
      onCut C props event w = Returned () w2
      ∧ editor w2 = editor w0
      ∧ DeleteFragment ∉ emitted w0 w2
  end.
Proof.
  intros Hro Htarget Hhandled Hwrite.
  set (w1 := with_trace (λ t, t ++ [PreventDefault]) w0) in *.
  destruct (setFragmentData_frame C w1) as (dt & t & Hw2 & Ht).
  rewrite Hwrite in Hw2. simpl in Hw2.
  assert (editor w2 = editor w0) as Hed by (rewrite Hw2; by destruct w0).
  assert (emitted w0 w2 = PreventDefault :: t) as Hem.
  { apply emitted_app. rewrite Hw2. destruct w0; cbn.
    by rewrite <- app_assoc. }
  assert (DeleteFragment ∉ emitted w0 w2) as Hnot.
  { rewrite Hem. destruct Ht as [->|(a & b & c & ->)]; unfold entries;
      rewrite ?elem_of_cons, elem_of_nil; intuition discriminate. }
  assert (onCut C props event w =
          (e ← gets editor;
           match selection e with
           | Some sel => if Range_isExpanded sel then deleteFragment C else skip
           | None => skip
           end) w2) as Hcut.
  { unfold onCut.
    cbv [preventDefault emit modify gets mbind mret M_bind M_ret].
    rewrite Hro, Htarget. cbn [negb andb]. rewrite Hhandled.
    fold w1. by rewrite Hwrite. }
  rewrite Hcut. cbv [gets mbind M_bind]. rewrite Hed.
  destruct (selection (editor w0)) as [sel|] eqn:Hsel; [|done].
  destruct (Range_isExpanded sel) eqn:Hexp; [|done].
  destruct Ht as [->|(a & b & c & ->)].
  - exfalso.
    apply (expanded_something_to_copy (editor w1) sel); [by destruct w0|done|].
    apply (setFragmentData_silent C w1 w2 Hwrite).
    apply emitted_app. rewrite Hw2. destruct w0; cbn. by rewrite app_nil_r.
  - eexists _, a, b, c. split; [reflexivity|]. split; [|split; [done|]].
    + apply emitted_app. rewrite Hw2. destruct w0; cbn.
      by rewrite <- !app_assoc.
    + cbn. by rewrite Hed.
Qed.

Lemma onCut_writes_then_deletes_witness :
  let C := Sample.collaborators false in
  let sel := mkRange (Sample.at_ [0; 0] 0) (Sample.at_ [0; 0] 2) in
  let w := Sample.world (Some sel) None in
  ∃ w3 a b c,
    onCut C (Sample.props false None None) (Sample.event 3) w = Returned () w3
    ∧ emitted w w3 = PreventDefault :: entries a b c ++ [DeleteFragment]
    ∧ emitted w (finalWorld
                   (setFragmentData C
                      (with_trace (λ t, t ++ [PreventDefault]) w)))
      = PreventDefault :: entries a b c
    ∧ editor w3 = Editor_deleteFragment C (editor w).
Proof.
  cbv zeta.
  exact (onCut_writes_then_deletes (Sample.collaborators false)
           (Sample.props false None None) (Sample.event 3)
           (Sample.world (Some (mkRange (Sample.at_ [0; 0] 0)
                                  (Sample.at_ [0; 0] 2))) None)
           _ _ eq_refl eq_refl eq_refl eq_refl).
Defined.

(** ** Inbound selection sync *)


(** C9, at an editor mounted editable and then rendered read-only: the
    listener registered at the first render still runs the closure of that
    render, whose [readOnly] is false; with the editor read-only and
    neither flag set, it asks the model to select the native range and
    records the focus. *)
Theorem selectionchange_listener_stale_readOnly :
  let C := Sample.collaborators false in
  let w0 := mkWorld (Sample.document None) Sample.idle false false
              (Some (mkDOMSelection (Some (mkDOMRange 3 0 3 1))))
              (Some 0) ∅ [] [] [] in
  ∃ mounted w1 rerendered w2 w3,
    render C (Sample.props false None None) None w0 = Returned mounted w1
    ∧ render C (Sample.props true None None) (Some (listener mounted)) w1
      = Returned rerendered w2
    ∧ IS_READ_ONLY w2 = true
    ∧ isComposing (state w2) = false
    ∧ isUpdatingSelection (state w2) = false
    ∧ listener rerendered w2 = Returned () w3
    ∧ emitted w2 w3
      = [Select (mkRange (Sample.at_ [0; 0] 0) (Sample.at_ [0; 0] 1))]
    ∧ selection (editor w2) = None
    ∧ selection (editor w3)
      = Some (mkRange (Sample.at_ [0; 0] 0) (Sample.at_ [0; 0] 1))
    ∧ IS_FOCUSED w2 = false ∧ IS_FOCUSED w3 = true
    ∧ latestElement (state w2) = None ∧ latestElement (state w3) = Some 0.
Proof.
  cbv zeta. eexists _, _, _, _, _.
  split; [lazy; reflexivity|]. split; [lazy; reflexivity|].
  repeat split; lazy; reflexivity.
Qed.

(** ** The read-only guard *)





(** ** The node that carries the fragment *)

Lemma DOMNode_ind' (P : DOMNode → Prop)
    (Htext : ∀ v, P (DText v))
    (Helement : ∀ tag attrs d cs, Forall P cs → P (DElement tag attrs d cs))
    (Hcomment : ∀ d, P (DComment d)) :
  ∀ n, P n.
Proof.
  fix IH 1. intros [v|tag attrs d cs|c]; [apply Htext| |apply Hcomment].
  apply Helement. induction cs as [|c cs IHcs]; constructor;
    [apply IH|apply IHcs].
Qed.

Lemma attach_scan (acc : option nat) (l : list DOMNode) :
  let r := foldl attachStep acc (imap pair l) in
  ((∀ n, n ∈ l → nonBlank n = false) ∧ r = acc)
  ∨ ∃ i n, l !! i = Some n ∧ nonBlank n = true
           ∧ (∀ j m, i < j → l !! j = Some m → nonBlank m = false)
           ∧ r = Some i.
Proof.
  induction l as [|x l IH] using rev_ind; cbv zeta.
  - left. split; [|done]. intros n Hn. by apply elem_of_nil in Hn.
  - rewrite imap_app, foldl_app. simpl. rewrite Nat.add_0_r.
    destruct (nonBlank x) eqn:Hx.
    + right. exists (length l), x. split; [by rewrite list_lookup_middle|].
      split; [done|]. split; [|done].
      intros j m Hj Hm. apply lookup_lt_Some in Hm.
      rewrite length_app in Hm. simpl in Hm. lia.
    + destruct IH as [[Hall ->]|(i & n & Hi & Hn & Hlast & ->)].
      * left. split; [|done]. intros n [Hn|Hn%list_elem_of_singleton]%elem_of_app;
          [by apply Hall|by subst].
      * right. exists i, n.
        split; [by rewrite lookup_app_l by (by eapply lookup_lt_Some)|].
        split; [done|]. split; [|done].
        intros j m Hj Hm. apply lookup_snoc_Some in Hm as [[_ Hm]|[_ <-]];
          [by eapply Hlast|done].
Qed.

Lemma initialAttach_spec (contents : list DOMNode) (i : nat) :
  initialAttach contents = Some i ↔
  (∃ n, contents !! i = Some n ∧ nonBlank n = true
        ∧ ∀ j m, i < j → contents !! j = Some m → nonBlank m = false)
  ∨ (i = 0 ∧ contents ≠ []
     ∧ ∀ m, m ∈ contents → nonBlank m = false).
Proof.
  unfold initialAttach.
  destruct (attach_scan (match contents with [] => None | _ :: _ => Some 0 end)
              contents) as [[Hall ->]|(k & n & Hk & Hn & Hlast & ->)].
  - split.
    + intros H. right. destruct contents; [done|]. by injection H as <-.
    + intros [(n & Hi & Hn & _)|(-> & Hne & _)].
      * apply list_elem_of_lookup_2, Hall in Hi. congruence.
      * by destruct contents.
  - split.
    + intros [= <-]. left. eauto.
    + intros [(m & Hi & Hm & Hlast')|(-> & _ & Hall)].
      * f_equal. destruct (Nat.lt_trichotomy i k) as [Hlt|[->|Hgt]]; [|done|].
        -- specialize (Hlast' _ _ Hlt Hk). congruence.
        -- specialize (Hlast _ _ Hgt Hi). congruence.
      * apply list_elem_of_lookup_2, Hall in Hk. congruence.
Qed.

Lemma initialAttach_None (contents : list DOMNode) :
  initialAttach contents = None ↔ contents = [].
Proof.
  split; [|by intros ->].
  destruct contents as [|c cs]; [done|]. intros H. exfalso.
  destruct (attach_scan (Some 0) (c :: cs))
    as [[_ Hr]|(k & n & _ & _ & _ & Hr)];
    unfold initialAttach in H; cbv zeta in Hr; rewrite Hr in H; done.
Qed.

(** Document order and [querySelector]. *)

Lemma queryFrom_Some (f : DOMNode → option (list nat)) (ns : list DOMNode)
    (i : nat) (r : list nat) :
  queryFrom f ns i = Some r →
  ∃ j c p, r = (i + j) :: p ∧ ns !! j = Some c ∧ f c = Some p
           ∧ ∀ j' c', j' < j → ns !! j' = Some c' → f c' = None.
Proof.
  revert i. induction ns as [|c ns IH]; intros i; [done|]. simpl.
  destruct (f c) as [p|] eqn:Hc.
  - intros [= <-]. exists 0, c, p. rewrite Nat.add_0_r.
    repeat split; [done..|]. intros; lia.
  - intros (j & c' & p & -> & Hj & Hp & Hbefore)%IH.
    exists (S j), c', p. replace (i + S j) with (S i + j) by lia.
    repeat split; [done..|].
    intros [|j'] c'' Hlt Hc''; simpl in Hc''; [by injection Hc'' as <-|].
    eapply Hbefore; [|done]. lia.
Qed.

Lemma queryFrom_None (f : DOMNode → option (list nat)) (ns : list DOMNode)
    (i : nat) :
  queryFrom f ns i = None → ∀ c, c ∈ ns → f c = None.
Proof.
  revert i. induction ns as [|c ns IH]; intros i; simpl.
  - intros _ c Hc. by apply elem_of_nil in Hc.
  - destruct (f c) as [p|] eqn:Hc; [done|].
    intros H c' [->|Hc']%elem_of_cons; [done|]. by eapply IH.
Qed.

Lemma nodeAt_cons (ns : list DOMNode) (i : nat) (p : list nat) :
  nodeAt ns (i :: p) = n ← ns !! i; nodeIn n p.
Proof.
  unfold nodeIn. simpl. destruct (ns !! i) as [n|]; [|done]. simpl.
  by destruct p.
Qed.

Lemma nodeIn_cons (n : DOMNode) (i : nat) (p : list nat) :
  nodeIn n (i :: p) =
  match n with
  | DElement _ _ _ cs => c ← cs !! i; nodeIn c p
  | _ => None
  end.
Proof.
  unfold nodeIn at 1. simpl. destruct n; [done| |done].
  apply nodeAt_cons.
Qed.

Lemma queryIn_first (name : string) (n : DOMNode) :
  (∀ p, queryIn name n = Some p →
        (∃ m, nodeIn n p = Some m ∧ hasAttribute name m = true)
        ∧ ∀ q m, nodeIn n q = Some m → hasAttribute name m = true →
                 ¬ before q p)
  ∧ (queryIn name n = None →
     ∀ q m, nodeIn n q = Some m → hasAttribute name m = false).
Proof.
  induction n as [v|tag attrs d cs IH|c] using DOMNode_ind'.
  - split; [done|]. intros _ [|i q] m; [by intros [= <-]|].
    by rewrite nodeIn_cons.
  - simpl. destruct (bool_decide (is_Some (attrs !! name))) eqn:Hattr.
    + split; [|done]. intros p [= <-]. split.
      * eexists. split; [reflexivity|]. done.
      * intros q m _ _ H. by destruct q.
    + split.
      * intros r (j & c & p & -> & Hj & Hp & Hbefore)%queryFrom_Some.
        simpl. rewrite Forall_lookup in IH.
        destruct (IH _ _ Hj) as [Hsome _].
        destruct (Hsome _ Hp) as [(m & Hm & Hattr') Hfirst].
        split.
        -- exists m. rewrite nodeIn_cons, Hj. done.
        -- intros [|i q] m'.
           ++ intros [= <-]. simpl. by rewrite Hattr.
           ++ rewrite nodeIn_cons. destruct (cs !! i) as [c'|] eqn:Hi; [|done].
              simpl. intros Hm' Hattr'' [Hlt|[-> Hb]].
              ** destruct (IH _ _ Hi) as [_ Hnone].
                 rewrite (Hnone (Hbefore _ _ Hlt Hi) _ _ Hm') in Hattr''. done.
              ** rewrite Hj in Hi. injection Hi as <-.
                 by eapply Hfirst.
      * intros Hnone [|i q] m.
        -- intros [= <-]. simpl. done.
        -- rewrite nodeIn_cons.
           destruct (cs !! i) as [c'|] eqn:Hi; [|done]. simpl.
           rewrite Forall_lookup in IH. destruct (IH _ _ Hi) as [_ Hc'].
           apply Hc'. eapply queryFrom_None; [done|].
           by eapply list_elem_of_lookup_2.
  - split; [done|]. intros _ [|i q] m; [by intros [= <-]|].
    by rewrite nodeIn_cons.
Qed.

Lemma querySelector_first (name : string) (ns : list DOMNode) (p : list nat) :
  querySelector name ns = Some p →
  (∃ m, nodeAt ns p = Some m ∧ hasAttribute name m = true)
  ∧ ∀ q m, nodeAt ns q = Some m → hasAttribute name m = true → ¬ before q p.
Proof.
  intros (j & c & p' & -> & Hj & Hp & Hbefore)%queryFrom_Some.
  change (0 + j) with j.
  destruct (queryIn_first name c) as [Hsome _].
  destruct (Hsome _ Hp) as [(m & Hm & Hattr) Hfirst]. split.
  - exists m. by rewrite nodeAt_cons, Hj.
  - intros [|i q] m'; [done|]. rewrite nodeAt_cons.
    destruct (ns !! i) as [c'|] eqn:Hi; [|done]. simpl.
    intros Hm' Hattr' [Hlt|[-> Hb]].
    + destruct (queryIn_first name c') as [_ Hnone].
      rewrite (Hnone (Hbefore _ _ Hlt Hi) _ _ Hm') in Hattr'. done.
    + rewrite Hj in Hi. injection Hi as <-. by eapply Hfirst.
Qed.

(** C4 fails as stated: of two blocks with text, the second is chosen,
    though the first is the first non-blank node of the clone. *)
Lemma attach_is_last_not_first :
  let clone := [Sample.paragraphMarkup (lit "a");
                Sample.paragraphMarkup (lit "b")] in
  chooseAttach clone None false = Within [1]
  ∧ firstNonBlankDescendant clone = Some [0]
  ∧ chooseAttach clone None false
    ≠ from_option Within NoAttach (firstNonBlankDescendant clone).
Proof. cbv zeta. repeat split; vm_compute; [done..|discriminate]. Qed.

(** C4, amended: for a selection that neither starts nor ends in a void
    node, the node that carries the fragment is the last child of the
    clone (a child, not a deeper node) whose text is not blank, the first
    child if all are blank, and none if the clone is empty; when the start
    is in a void node it is the first element of the clone, in document
    order, that carries the spacer attribute, if there is one. *)
Theorem attach_choice (first : list DOMNode)
    (second : option (list DOMNode)) :
  chooseAttach first None false
  = from_option (λ i, Within [i]) NoAttach (initialAttach first)
  ∧ (∀ i, initialAttach first = Some i ↔
          (∃ n, first !! i = Some n ∧ nonBlank n = true
                ∧ ∀ j m, i < j → first !! j = Some m → nonBlank m = false)
          ∨ (i = 0 ∧ first ≠ []
             ∧ ∀ m, m ∈ first → nonBlank m = false))
  ∧ (initialAttach first = None ↔ first = [])
  ∧ chooseAttach first second true
    = from_option Within NoAttach
        (querySelector "data-slate-spacer" (default first second))
  ∧ (∀ p, querySelector "data-slate-spacer" (default first second) = Some p →
          (∃ m, nodeAt (default first second) p = Some m
                ∧ hasAttribute "data-slate-spacer" m = true)
          ∧ ∀ q m, nodeAt (default first second) q = Some m →
                   hasAttribute "data-slate-spacer" m = true →
                   ¬ before q p).
Proof.
  split; [|split; [apply initialAttach_spec|split; [apply initialAttach_None|]]].
  - unfold chooseAttach. simpl. by destruct (initialAttach first).
  - split.
    + unfold chooseAttach. simpl. by destruct (querySelector _ _).
    + apply querySelector_first.
Qed.

Lemma attach_choice_witness :
  let clone := [Sample.paragraphMarkup (lit "a");
                Sample.paragraphMarkup (lit "b")] in
  ((∃ n, clone !! 1 = Some n ∧ nonBlank n = true
         ∧ ∀ j m, 1 < j → clone !! j = Some m → nonBlank m = false)
   ∨ (1 = 0 ∧ clone ≠ [] ∧ ∀ m, m ∈ clone → nonBlank m = false))
  ∧ ((∃ m, nodeAt [Sample.imageMarkup] [0; 0] = Some m
           ∧ hasAttribute "data-slate-spacer" m = true)
     ∧ ∀ q m, nodeAt [Sample.imageMarkup] q = Some m →
              hasAttribute "data-slate-spacer" m = true →
              ¬ before q [0; 0]).
Proof.
  cbv zeta. split.
  - apply (proj1 (proj1 (proj2 (attach_choice _ None)) 1)). reflexivity.
  - apply (proj2 (proj2 (proj2 (proj2
             (attach_choice [Sample.imageMarkup] None))))).
    reflexivity.
Defined.

(** ** Clicks on void nodes *)

Lemma Editor_isVoid_element (e : Editor) (n : Node) :
  Editor_isVoid e n = true → isText n = false.
Proof. by destruct n as [|[t|k cs]]. Qed.

(** On the way down to a void node, the levels stop at a void element, at
    that node at the latest. *)
Lemma levels_from_void (e : Editor) (rest1 rest2 : Path) :
  ∀ d here V,
    get_from d rest1 = Some V →
    Editor_isVoid e (Desc V) = true →
    ∃ n p', levels_from e (Editor_isVoid e) d here (rest1 ++ rest2)
            = Some [(n, p')]
            ∧ isText n = false
            ∧ length p' ≤ length here + length rest1.
Proof.
  induction rest1 as [|i r IH]; intros d here V Hget Hvoid.
  - simpl in Hget. injection Hget as ->.
    exists (Desc V), here. split; [|split].
    + destruct rest2; simpl; by rewrite Hvoid.
    + by apply Editor_isVoid_element in Hvoid.
    + lia.
  - simpl in Hget. destruct d as [t|k cs]; [done|].
    destruct (cs !! i) as [c|] eqn:Hc; [|done]. simpl in Hget.
    destruct (Editor_isVoid e (Desc (Element k cs))) eqn:Hd.
    + exists (Desc (Element k cs)), here. split; [|split].
      * simpl. by rewrite Hd.
      * done.
      * lia.
    + destruct (IH c (here ++ [i]) V Hget Hvoid) as (n & p' & Hl & Hn & Hlen).
      exists n, p'. split; [|split; [done|]].
      * simpl. rewrite Hd, Hc. simpl. by rewrite Hl.
      * rewrite length_app in Hlen. simpl in *. lia.
Qed.

(** Below a void node, the void lookup finds a void element. *)
Lemma Editor_void_below (e : Editor) (p q : Path) (V : Descendant)
    (at_ : Location) :
  Editor_path at_ = p ++ q →
  Node_get e p = Some (Desc V) →
  Editor_isVoid e (Desc V) = true →
  q ≠ [] →
  ∃ above, Editor_void e at_ = Some (Some above).
Proof.
  intros Hpath Hget Hvoid Hq.
  unfold Editor_void, Editor_above, Editor_levels. rewrite Hpath.
  destruct p as [|i p]; [done|]. simpl in Hget.
  destruct (children e !! i) as [c|] eqn:Hc; [|done]. simpl in Hget.
  destruct (get_from c p) as [V'|] eqn:HV; [|done].
  injection Hget as ->.
  destruct (levels_from_void e p q c [i] V HV Hvoid)
    as (n & p' & Hl & Hn & Hlen).
  simpl. rewrite Hc. simpl. rewrite Hl. simpl.
  exists (n, p'). rewrite reverse_singleton, filter_cons_True; [done|].
  simpl. rewrite Hn. split; [done|].
  intros ->. simpl in Hlen. rewrite length_app in Hlen.
  destruct q; [done|]. simpl in Hlen. lia.
Qed.





(** ** The placeholder decoration *)

Lemma Descendant_ind' (P : Descendant → Prop)
    (Htext : ∀ t, P (Text t))
    (Helement : ∀ k cs, Forall P cs → P (Element k cs)) :
  ∀ d, P d.
Proof.
  fix IH 1. intros [t|k cs]; [apply Htext|].
  apply Helement. induction cs as [|c cs IHcs]; constructor;
    [apply IH|apply IHcs].
Qed.

Lemma textOf_app (a b : list (Descendant * Path)) :
  textOf (a ++ b) = textOf a ++ textOf b.
Proof. unfold textOf. by rewrite fmap_app, concat_app. Qed.

Lemma texts_in_string (cs : list Descendant) :
  Forall (λ c, ∀ here, string_from c = textOf (texts_from c here)) cs →
  ∀ here i, concat (string_from <$> cs) = textOf (texts_in texts_from cs here i).
Proof.
  induction 1 as [|c cs Hc _ IH]; intros here i; [done|].
  simpl. by rewrite textOf_app, <- Hc, <- IH.
Qed.

(** The string of a node is the text of its leaves, in order. *)
Lemma string_from_texts (d : Descendant) :
  ∀ here, string_from d = textOf (texts_from d here).
Proof.
  induction d as [t|k cs IH] using Descendant_ind'; intros here.
  - unfold textOf. simpl. by rewrite app_nil_r.
  - simpl. by apply texts_in_string.
Qed.

Lemma Node_string_texts (e : Editor) :
  Node_string e = textOf (Node_texts e).
Proof.
  apply texts_in_string, Forall_forall. intros c _. apply string_from_texts.
Qed.

Lemma texts_in_leaves (cs : list Descendant) :
  Forall (λ c, ∀ here, Forall (λ x, ∃ t, x.1 = Text t) (texts_from c here)) cs →
  ∀ here i, Forall (λ x, ∃ t, x.1 = Text t) (texts_in texts_from cs here i).
Proof.
  induction 1 as [|c cs Hc _ IH]; intros here i; [by constructor|].
  simpl. apply Forall_app. split; [apply Hc|apply IH].
Qed.

(** [Node.texts] lists text nodes only. *)
Lemma texts_from_leaves (d : Descendant) :
  ∀ here, Forall (λ x, ∃ t, x.1 = Text t) (texts_from d here).
Proof.
  induction d as [t|k cs IH] using Descendant_ind'; intros here.
  - constructor; [by exists t|constructor].
  - simpl. by apply texts_in_leaves.
Qed.

Lemma Node_texts_leaves (e : Editor) :
  Forall (λ x, ∃ t, x.1 = Text t) (Node_texts e).
Proof.
  apply texts_in_leaves, Forall_forall. intros c _. apply texts_from_leaves.
Qed.

(** In a well-formed node the first children lead to a text, and that
    text is the first leaf. *)
Lemma first_from_leaf (d : Descendant) :
  wellFormed d = true →
  ∀ here, ∃ t, get_from d (first_from d) = Some (Text t)
               ∧ head (texts_from d here) = Some (Text t, here ++ first_from d).
Proof.
  induction d as [t|k cs IH] using Descendant_ind'; intros Hwf here.
  - exists t. simpl. by rewrite app_nil_r.
  - destruct cs as [|c cs]; [done|]. simpl in Hwf.
    apply andb_true_iff in Hwf as [Hc _].
    apply Forall_cons in IH as [IHc _].
    destruct (IHc Hc (here ++ [0])) as (t & Hget & Hhead).
    exists t. simpl. split; [done|].
    destruct (texts_from c (here ++ [0])) as [|x l]; [done|].
    simpl in *. by rewrite Hhead, <- app_assoc.
Qed.

Lemma texts_from_nonempty (d : Descendant) (here : Path) :
  wellFormed d = true → texts_from d here ≠ [].
Proof.
  intros Hwf. destruct (first_from_leaf d Hwf here) as (t & _ & Hhead).
  by destruct (texts_from d here).
Qed.

(** A well-formed document with one leaf has one top-level node. *)
Lemma one_leaf_one_child (e : Editor) :
  forallb wellFormed (children e) = true →
  length (Node_texts e) = 1 → length (children e) = 1.
Proof.
  unfold Node_texts. destruct (children e) as [|c [|c' cs]]; [done..|].
  simpl. intros Hwf.
  apply andb_true_iff in Hwf as [Hc [Hc' _]%andb_true_iff].
  apply (texts_from_nonempty c ([] ++ [0])) in Hc.
  apply (texts_from_nonempty c' ([] ++ [1])) in Hc'.
  rewrite !length_app.
  destruct (texts_from c _), (texts_from c' _); simpl; [done..|lia].
Qed.

(** What the render tests, set against the document having one leaf that
    is empty. *)
Lemma placeholder_condition (e : Editor) :
  forallb wellFormed (children e) = true →
  bool_decide (length (children e) = 1)
  && bool_decide (length (Node_texts e) = 1)
  && bool_decide (Node_string e = []) = true
  ↔ ∃ p, soleEmptyLeaf e p.
Proof.
  intros Hwf. unfold soleEmptyLeaf. rewrite !andb_true_iff, !bool_decide_eq_true.
  split.
  - intros [[_ Hone] Hempty].
    pose proof (Node_texts_leaves e) as Hleaves.
    rewrite Node_string_texts in Hempty.
    destruct (Node_texts e) as [|[d p] [|]]; [done| |done].
    apply Forall_cons in Hleaves as [[t Ht] _]. simpl in Ht. subst d.
    unfold textOf in Hempty. simpl in Hempty. rewrite app_nil_r in Hempty.
    change (t = []) in Hempty. subst t. by exists p.
  - intros [p Hp]. split; [split|].
    + apply one_leaf_one_child; [done|]. by rewrite Hp.
    + by rewrite Hp.
    + by rewrite Node_string_texts, Hp.
Qed.

(** The start of a well-formed document is offset 0 of its first leaf. *)
Lemma document_start (e : Editor) (d : Descendant) (p : Path)
    (rest : list (Descendant * Path)) :
  forallb wellFormed (children e) = true →
  Node_texts e = (d, p) :: rest →
  Editor_start e (AtPath []) = Some (mkPoint p 0).
Proof.
  unfold Node_texts, Editor_start, Editor_point, Node_first. simpl.
  destruct (children e) as [|c cs] eqn:Hcs; [done|]. simpl.
  intros [Hc _]%andb_true_iff Htexts.
  destruct (first_from_leaf c Hc [0]) as (t & Hget & Hhead).
  rewrite Hcs. simpl. rewrite Hget. simpl. simpl in Htexts.
  destruct (texts_from c [0]) as [|x l]; [done|].
  simpl in Hhead, Htexts. injection Hhead as ->. by injection Htexts as _ <- _.
Qed.

(** C8 fails as stated: with a [decorate] that hands out the same array at
    every render, the placeholder pushed for the empty document is still
    in the decorations once a character has been typed. *)
Lemma placeholder_survives_in_shared_array :
  let C := Sample.collaborators false in
  let shared : Path → M nat := λ _, mret 0 in
  let props := Sample.props false (Some (lit "Type here")) (Some shared) in
  let w0 := Sample.around Sample.emptyDocument [[]] in
  let ph := mkDecoration (mkPoint [0; 0] 0) (mkPoint [0; 0] 0) true
              (Some (lit "Type here")) in
  ∃ r1 w1 r2 w2,
    render C props None w0 = Returned r1 w1
    ∧ arrays w1 !! decorations r1 = Some [ph]
    ∧ render C props (Some (listener r1))
        (with_editor (const Sample.typedDocument) w1)
      = Returned r2 w2
    ∧ Node_string (editor w2) = lit "a"
    ∧ length (Node_texts (editor w2)) = 1
    ∧ ∃ ds, arrays w2 !! decorations r2 = Some ds ∧ placeholders ds = [ph].
Proof.
  cbv zeta. eexists _, _, _, _.
  split; [lazy; reflexivity|]. split; [lazy; reflexivity|].
  split; [lazy; reflexivity|]. split; [lazy; reflexivity|].
  split; [lazy; reflexivity|].
  eexists. split; lazy; reflexivity.
Qed.

Lemma not_sole_leaf (e : Editor) :
  Node_string e ≠ [] ∨ 1 < length (Node_texts e) → ∀ p, ¬ soleEmptyLeaf e p.
Proof.
  unfold soleEmptyLeaf. intros [Hs|Hl] p Hp.
  - apply Hs. by rewrite Node_string_texts, Hp.
  - rewrite Hp in Hl. simpl in Hl. lia.
Qed.

(** C8, amended: the decorations are pushed onto the array [decorate]
    returns, so let that array hold no placeholder decoration when it is
    returned (a new array, as the default [decorate] gives), and let every
    element of the document have a child.  Then, if the placeholder is a
    non-empty string and the document consists of exactly one text leaf,
    which is empty, the render adds exactly one placeholder decoration,
    collapsed at the document start (offset 0 of that leaf) with the
    marker and the placeholder attached; if there is no placeholder, or it
    is the empty string, or the text is not empty, or there is more than
    one leaf, the render adds none. *)
Theorem render_placeholder (C : Collaborators) (props : EditableProps)
    (memo : option (M unit)) (w w1 : World) (array : nat)
    (ds : list Decoration) :
  let e := editor w1 in
  default defaultDecorate (decorate props) []
    (with_IS_READ_ONLY (readOnly props) w) = Returned array w1 →
  arrays w1 !! array = Some ds →
  placeholders ds = [] →
  forallb wellFormed (children e) = true →
  (∀ p, truthy (placeholder props) = true → soleEmptyLeaf e p →
        let d := mkDecoration (mkPoint p 0) (mkPoint p 0) true
                   (placeholder props) in
        ∃ r w', render C props memo w = Returned r w'
                ∧ decorations r = array
                ∧ arrays w' !! array = Some (ds ++ [d])
                ∧ placeholders (ds ++ [d]) = [d]
                ∧ Editor_start e (AtPath []) = Some (mkPoint p 0)
                ∧ editor w' = e)
  ∧ (truthy (placeholder props) = false ∨ (∀ p, ¬ soleEmptyLeaf e p) →
     ∃ r, render C props memo w = Returned r w1 ∧ decorations r = array)
  ∧ (Node_string e ≠ [] ∨ 1 < length (Node_texts e) →
     ∃ r, render C props memo w = Returned r w1 ∧ decorations r = array).
Proof.
  intros e Hdec Harray Hnone Hwf.
  assert (truthy (placeholder props) = false ∨ (∀ p, ¬ soleEmptyLeaf e p) →
          ∃ r, render C props memo w = Returned r w1 ∧ decorations r = array)
    as Hskip.
  { intros Hnot. unfold render. run. rewrite Hdec. fold e.
    destruct (truthy (placeholder props)
              && bool_decide (length (children e) = 1)
              && bool_decide (length (Node_texts e) = 1)
              && bool_decide (Node_string e = [])) eqn:Hcond;
      [|by eexists].
    exfalso. rewrite <- !andb_assoc in Hcond.
    apply andb_true_iff in Hcond as [Htruthy Hcond].
    rewrite andb_assoc in Hcond.
    apply placeholder_condition in Hcond as [p Hp]; [|done].
    destruct Hnot as [Hf|Hf]; [congruence|by eapply Hf]. }
  split; [|split; [done|]].
  - intros p Htruthy Hp d.
    pose proof (document_start e _ _ _ Hwf Hp) as Hstart.
    assert (bool_decide (length (children e) = 1)
            && bool_decide (length (Node_texts e) = 1)
            && bool_decide (Node_string e = []) = true) as Hcond.
    { apply placeholder_condition; eauto. }
    unfold render. run. rewrite Hdec. fold e.
    rewrite <- !andb_assoc, Htruthy. cbn [andb].
    rewrite andb_assoc, Hcond, Hstart.
    eexists _, _. split; [reflexivity|]. split; [done|].
    split; [|split; [|split; [done|by destruct w1]]].
    + destruct w1; cbn in Harray |- *.
      by rewrite list_lookup_alter, Harray, decide_True.
    + unfold placeholders in *. rewrite filter_app, Hnone. done.
  - intros Hnot. apply Hskip. right. by apply not_sole_leaf.
Qed.

Lemma render_placeholder_witness :
  let C := Sample.collaborators false in
  let props := Sample.props false (Some (lit "Type here")) None in
  let w := Sample.around Sample.emptyDocument [] in
  let typed := Sample.around Sample.typedDocument [] in
  let d := mkDecoration (mkPoint [0; 0] 0) (mkPoint [0; 0] 0) true
             (Some (lit "Type here")) in
  (∃ r w', render C props None w = Returned r w'
           ∧ decorations r = 0
           ∧ arrays w' !! 0 = Some ([] ++ [d])
           ∧ placeholders ([] ++ [d]) = [d]
           ∧ Editor_start Sample.emptyDocument (AtPath [])
             = Some (mkPoint [0; 0] 0)
           ∧ editor w' = Sample.emptyDocument)
  ∧ (∃ r, render C (Sample.props false (Some []) None) None w
          = Returned r (Sample.around Sample.emptyDocument [[]])
          ∧ decorations r = 0)
  ∧ (∃ r, render C props None typed
          = Returned r (Sample.around Sample.typedDocument [[]])
          ∧ decorations r = 0).
Proof.
  cbv zeta. split; [|split].
  - exact (proj1 (render_placeholder (Sample.collaborators false)
                    (Sample.props false (Some (lit "Type here")) None) None
                    (Sample.around Sample.emptyDocument [])
                    (Sample.around Sample.emptyDocument [[]])
                    0 [] eq_refl eq_refl eq_refl eq_refl)
             [0; 0] eq_refl eq_refl).
  - apply (proj1 (proj2 (render_placeholder (Sample.collaborators false)
                           (Sample.props false (Some []) None) None
                           (Sample.around Sample.emptyDocument [])
                           (Sample.around Sample.emptyDocument [[]])
                           0 [] eq_refl eq_refl eq_refl eq_refl))).
    by left.
  - apply (proj2 (proj2 (render_placeholder (Sample.collaborators false)
                           (Sample.props false (Some (lit "Type here")) None)
                           None
                           (Sample.around Sample.typedDocument [])
                           (Sample.around Sample.typedDocument [[]])
                           0 [] eq_refl eq_refl eq_refl eq_refl))).
    left. discriminate.
Defined.

(** * Further properties *)

Import Laws.

(** ** Range equality *)

Lemma isRangeEqual_true (a b : DOMRange) :
  isRangeEqual a b = true ↔ a = b ∨ a = flipped b.
Proof.
  destruct a as [sa so ea eo], b as [sb sob eb eob].
  unfold isRangeEqual, flipped. cbn.
  rewrite orb_true_iff, !andb_true_iff, !bool_decide_eq_true. split.
  - intros [[[[-> ->] ->] ->]|[[[-> ->] ->] ->]]; eauto.
  - intros [[= -> -> -> ->]|[= -> -> -> ->]]; [left|right]; done.
Qed.

(** X1: [isRangeEqual] holds exactly of a range and itself or itself with
    the ends exchanged; it is symmetric, blind to the direction of either
    range, and transitive. *)
Theorem isRangeEqual_undirected (a b : DOMRange) :
  (isRangeEqual a b = true ↔ a = b ∨ a = flipped b)
  ∧ isRangeEqual a b = isRangeEqual b a
  ∧ isRangeEqual (flipped a) b = isRangeEqual a b
  ∧ isRangeEqual a (flipped b) = isRangeEqual a b
  ∧ (∀ c, isRangeEqual a b = true → isRangeEqual b c = true →
          isRangeEqual a c = true).
Proof.
  assert (∀ r, flipped (flipped r) = r) as Hff by (by intros []).
  assert (∀ x y, isRangeEqual x y = isRangeEqual y x) as Hsym.
  { intros x y. apply eq_true_iff_eq. rewrite !isRangeEqual_true.
    split; (intros [->| ->]; [by left|right; by rewrite ?Hff]). }
  assert (∀ x y, isRangeEqual x (flipped y) = isRangeEqual x y) as Hflip.
  { intros x y. apply eq_true_iff_eq. rewrite !isRangeEqual_true, Hff.
    tauto. }
  split; [apply isRangeEqual_true|]. split; [apply Hsym|].
  split; [by rewrite (Hsym (flipped a)), Hflip, Hsym|]. split; [apply Hflip|].
  intros c. rewrite !isRangeEqual_true.
  intros [->| ->] [->| ->]; rewrite ?Hff; eauto.
Qed.

(** ** Plain text and text content *)

Lemma textContent_element (tag : string) (attrs : gmap string JSString)
    (d : string) (cs : list DOMNode) :
  forallb noComment cs = true →
  textContent (DElement tag attrs d cs) = concat (textContent <$> cs).
Proof.
  induction cs as [|c cs IH]; [done|]. simpl.
  intros [Hc Hcs]%andb_true_iff. specialize (IH Hcs). simpl in IH.
  rewrite IH. by destruct c.
Qed.

Lemma getPlainText_element (tag : string) (attrs : gmap string JSString)
    (d : string) (cs : list DOMNode) :
  getPlainText (DElement tag attrs d cs) =
  concat (getPlainText <$> cs) ++ (if breaksLine tag d then [10%N] else []).
Proof.
  simpl. rewrite (foldl_append getPlainText cs []). unfold breaksLine.
  destruct (_ || _); simpl; by rewrite ?app_nil_r.
Qed.

Lemma getPlainText_text (v : JSString) : getPlainText (DText v) = v.
Proof. by destruct v. Qed.

(** X2: on markup without comment nodes, [getPlainText] is the text
    content with one newline added per element that is displayed as a
    block or a list or is a [BR]: the lengths differ by the number of such
    elements, and without any the two texts are equal. *)
Theorem getPlainText_textContent (n : DOMNode) :
  noComment n = true →
  length (getPlainText n) = length (textContent n) + lineBreaks n
  ∧ (lineBreaks n = 0 → getPlainText n = textContent n).
Proof.
  induction n as [v|tag attrs d cs IH|c] using DOMNode_ind'; [| |done].
  - intros _. rewrite getPlainText_text. simpl. split; [lia|done].
  - intros Hcs. simpl in Hcs.
    rewrite getPlainText_element, (textContent_element _ _ _ _ Hcs).
    cbn [lineBreaks].
    assert (length (concat (getPlainText <$> cs))
            = length (concat (textContent <$> cs))
              + sum_list (lineBreaks <$> cs)
            ∧ (sum_list (lineBreaks <$> cs) = 0 →
               concat (getPlainText <$> cs) = concat (textContent <$> cs)))
      as [Hlen Heq].
    { clear -IH Hcs. induction IH as [|c cs Hc _ IHcs]; [done|].
      simpl in Hcs. apply andb_true_iff in Hcs as [Hc' Hcs].
      destruct (Hc Hc') as [Hl He], (IHcs Hcs) as [Hls Hes].
      rewrite !fmap_cons. cbn [concat].
      change (sum_list (lineBreaks c :: (lineBreaks <$> cs)))
        with (lineBreaks c + sum_list (lineBreaks <$> cs)).
      rewrite !length_app. split; [lia|].
      intros H0. rewrite He, Hes by lia. done. }
    rewrite length_app, Hlen.
    destruct (breaksLine tag d); simpl; split; try lia.
    intros H0. by rewrite app_nil_r, Heq.
Qed.

Lemma getPlainText_textContent_witness :
  length (getPlainText Sample.imageMarkup)
  = length (textContent Sample.imageMarkup) + lineBreaks Sample.imageMarkup
  ∧ (lineBreaks Sample.imageMarkup = 0 →
     getPlainText Sample.imageMarkup = textContent Sample.imageMarkup).
Proof. apply getPlainText_textContent. reflexivity. Defined.

(** ** Zero-width spans *)

(** X3: rewriting the zero-width spans is idempotent, leaves markup
    without such spans as it is, and leaves every zero-width span, at any
    depth, with a single newline text (kind ['n']) or with no child at
    all. *)
Theorem stripZeroWidth_spans (n : DOMNode) :
  stripZeroWidth (stripZeroWidth n) = stripZeroWidth n
  ∧ (carries "data-slate-zero-width" n = false → stripZeroWidth n = n)
  ∧ (∀ p tag attrs d cs kind,
       nodeIn (stripZeroWidth n) p = Some (DElement tag attrs d cs) →
       attrs !! "data-slate-zero-width" = Some kind →
       cs = if bool_decide (kind = lit "n") then [DText [10%N]] else []).
Proof.
  induction n as [v|tag attrs d cs IH|c] using DOMNode_ind'.
  - split; [done|]. split; [done|]. intros [|i p]; [done|].
    intros *. by rewrite nodeIn_cons.
  - simpl. destruct (attrs !! "data-slate-zero-width") as [kind|] eqn:Hzw.
    + split; [by simpl; rewrite Hzw|]. split.
      { rewrite bool_decide_eq_true_2 by eauto. done. }
      intros [|i p] tag' attrs' d' cs' kind'.
      * intros [= <- <- <- <-]. rewrite Hzw. by intros [= <-].
      * rewrite nodeIn_cons. destruct (bool_decide (kind = lit "n")).
        -- destruct i as [|i]; [|done]. simpl. destruct p; [done|].
           by rewrite nodeIn_cons.
        -- done.
    + split; [|split].
      * simpl. rewrite Hzw. f_equal. rewrite <- list_fmap_compose.
        apply list_fmap_ext. intros i c Hc. simpl.
        rewrite Forall_lookup in IH. by apply (IH i c Hc).
      * rewrite bool_decide_eq_false_2 by (by intros [? ?]). simpl.
        intros Hcs. f_equal. rewrite <- (list_fmap_id cs) at 2.
        apply list_fmap_ext. intros i c Hc. simpl.
        rewrite Forall_lookup in IH. apply (IH i c Hc).
        apply not_true_iff_false. intros Hcar.
        apply not_true_iff_false in Hcs. apply Hcs, existsb_exists.
        exists c. split; [|done]. by eapply list_elem_of_In, list_elem_of_lookup_2.
      * intros [|i p] tag' attrs' d' cs' kind'.
        -- intros [= <- <- <- <-]. by rewrite Hzw.
        -- rewrite nodeIn_cons, list_lookup_fmap.
           destruct (cs !! i) as [c|] eqn:Hc; [|done]. simpl.
           rewrite Forall_lookup in IH. apply (IH i c Hc).
  - split; [done|]. split; [done|]. intros [|i p]; [done|].
    intros *. by rewrite nodeIn_cons.
Qed.

(** ** The fragment attribute in the clone *)




Lemma carries_stripZeroWidth (name : string) (n : DOMNode) :
  carries name n = false → carries name (stripZeroWidth n) = false.
Proof.
  induction n as [v|tag attrs d cs IH|c] using DOMNode_ind'; [done| |done].
  simpl. intros [Hattr Hcs]%orb_false_iff.
  destruct (attrs !! "data-slate-zero-width") as [kind|].
  - simpl. rewrite Hattr. by destruct (bool_decide (kind = lit "n")).
  - simpl. rewrite Hattr. simpl.
    apply not_true_iff_false. intros (c & Hin & Hc)%existsb_exists.
    apply list_elem_of_In, list_elem_of_fmap in Hin as (c' & -> & Hin).
    rewrite Forall_forall in IH. rewrite IH in Hc; [done|done|].
    apply not_true_iff_false. intros Hc'.
    apply not_true_iff_false in Hcs. apply Hcs, existsb_exists.
    exists c'. by rewrite <- list_elem_of_In.
Qed.

(** X5: when only the end of the selection is in a void node and the
    child chosen in the first clone is an element, the attribute is set
    on that node of the first clone, which is no longer the clone that is
    serialised: the markup written is the second clone with its zero-width
    spans rewritten, and if no element of the second clone carried a
    [data-slate-fragment] attribute, none of the markup does. *)
Theorem fragment_attribute_lost (d : string) (first second : list DOMNode)
    (encoded : JSString) (i : nat) (tag : string)
    (attrs : gmap string JSString) (display : string) (cs : list DOMNode) :
  initialAttach first = Some i →
  first !! i = Some (DElement tag attrs display cs) →
  attachFragment d second (chooseAttach first (Some second) false) encoded
  = Some (stripZeroWidth <$> second)
  ∧ (existsb (carries "data-slate-fragment") second = false →
     existsb (carries "data-slate-fragment") (stripZeroWidth <$> second)
     = false).
Proof.
  intros Hi Hn. split.
  - unfold chooseAttach. simpl. by rewrite Hi, Hn.
  - intros Hnone. apply not_true_iff_false.
    intros (c & Hin & Hc)%existsb_exists.
    apply list_elem_of_In, list_elem_of_fmap in Hin as (c' & -> & Hin).
    rewrite carries_stripZeroWidth in Hc; [done|].
    apply not_true_iff_false. intros Hc'.
    apply not_true_iff_false in Hnone. apply Hnone, existsb_exists.
    exists c'. by rewrite <- list_elem_of_In.
Qed.

Lemma fragment_attribute_lost_witness :
  let first := [Sample.paragraphMarkup (lit "b"); Sample.spacerMarkup] in
  let second := [Sample.paragraphMarkup (lit "b"); Sample.imageMarkup] in
  attachFragment "" second (chooseAttach first (Some second) false) (lit "ab")
  = Some (stripZeroWidth <$> second)
  ∧ (existsb (carries "data-slate-fragment") second = false →
     existsb (carries "data-slate-fragment") (stripZeroWidth <$> second)
     = false).
Proof.
  cbv zeta.
  apply (fragment_attribute_lost "" _ _ (lit "ab") 0 "DIV"
           {[ "data-slate-node" := lit "element" ]} "block"
           [Sample.leafMarkup (lit "b")]); reflexivity.
Defined.

(** X6: for a selection that neither starts nor ends in a void node, the
    work on the clone fails (the [TypeError] of [attach.setAttribute])
    exactly when the clone is empty or the child [attach] ended on is a
    comment node; a text or an element always gets the attribute. *)
Theorem attach_fails_only_without_node (d : string) (first : list DOMNode)
    (encoded : JSString) :
  attachFragment d first (chooseAttach first None false) encoded = None
  ↔ first = []
    ∨ ∃ i c, initialAttach first = Some i ∧ first !! i = Some (DComment c).
Proof.
  unfold chooseAttach. simpl.
  destruct (initialAttach first) as [i|] eqn:Hi.
  - assert (∃ n, first !! i = Some n) as [n Hn].
    { apply initialAttach_spec in Hi as [(n & Hn & _)|(-> & Hne & _)];
        [by exists n|]. destruct first; [done|by eexists]. }
    unfold attachFragment.
    assert (belowZeroWidth first [i] = false) as -> by reflexivity.
    simpl. rewrite list_lookup_fmap, Hn. simpl.
    destruct n as [v|tag attrs disp cs|c].
    + simpl. split; [done|]. intros [->|(j & c & [= <-] & Hc)]; [done|].
      by rewrite Hn in Hc.
    + assert (∃ cs', stripZeroWidth (DElement tag attrs disp cs)
                     = DElement tag attrs disp cs') as [cs' ->].
      { simpl. destruct (attrs !! "data-slate-zero-width"); by eexists. }
      simpl. split; [done|]. intros [->|(j & c & [= <-] & Hc)]; [done|].
      by rewrite Hn in Hc.
    + simpl. split; [|done]. intros _. right. by exists i, c.
  - split; [|done]. intros _. left. by apply initialAttach_None.
Qed.

(** ** The transfer object *)

(** X7: the write path of the codec touches no entry of the transfer
    object beside its three formats, whether it writes, has nothing to
    copy, or throws. *)
Theorem setFragmentData_other_formats (C : Collaborators) (w : World)
    (format : string) :
  format ≠ "application/x-slate-fragment" →
  format ≠ "text/html" →
  format ≠ "text/plain" →
  dataTransfer (finalWorld (setFragmentData C w)) !! format
  = dataTransfer w !! format.
Proof.
  intros H1 H2 H3. unfold setFragmentData. run.
  destruct (selection (editor w)) as [sel|]; [|done].
  destruct (Range_edges sel) as [s f].
  destruct (Editor_void (editor w) (AtPath (path s))) as [sv|]; [|done].
  destruct (Editor_void (editor w) (AtPath (path f))) as [ev|]; [|done].
  destruct (Range_isCollapsed sel && negb (bool_decide (is_Some sv))); [done|].
  destruct (prepareClone C (editor w) sel sv ev _) as [contents|]; [|done].
  destruct w. cbn. by rewrite !lookup_insert_ne.
Qed.

Lemma setFragmentData_other_formats_witness :
  let C := Sample.collaborators false in
  let w := with_dataTransfer (insert "text/uri-list" (lit "x"))
             (Sample.world (Some (mkRange (Sample.at_ [0; 0] 0)
                                    (Sample.at_ [0; 0] 2))) None) in
  dataTransfer (finalWorld (setFragmentData C w)) !! "text/uri-list"
  = dataTransfer w !! "text/uri-list".
Proof. cbv zeta. by apply setFragmentData_other_formats. Defined.

Lemma setFragmentData_nothing (C : Collaborators) (w : World) :
  nothingToCopy (editor w) → setFragmentData C w = Returned () w.
Proof.
  unfold nothingToCopy, setFragmentData. run.
  destruct (selection (editor w)) as [sel|]; [|done].
  intros [Hc Hv]. rewrite (Range_edges_collapsed _ Hc) in *.
  simpl in *. rewrite Hv. cbn. by rewrite Hc.
Qed.

(** X8: a copy past its guard with nothing to copy (no selection, or a
    collapsed one outside void nodes) still prevents the default copy of
    the platform, and writes nothing: the transfer object and the rest of
    the world stay as they were. *)
Theorem onCopy_nothing_to_copy (C : Collaborators) (props : EditableProps)
    (event : SyntheticEvent) (w : World) :
  Runtime.onCopy props = None →
  hasEditableTarget C (editor w) (target event) = true →
  nothingToCopy (editor w) →
  onCopy C props event w
  = Returned () (with_trace (λ t, t ++ [PreventDefault]) w).
Proof.
  intros Hnone Htarget Hnothing.
  cbv [onCopy preventDefault emit modify gets mbind mret M_bind M_ret
       isEventHandled skip].
  rewrite Hnone, Htarget. apply setFragmentData_nothing. by destruct w.
Qed.

Lemma onCopy_nothing_to_copy_witness :
  let C := Sample.collaborators false in
  let w := Sample.world (Some (Sample.caret [0; 0] 1)) None in
  onCopy C (Sample.props false None None) (Sample.event 3) w
  = Returned () (with_trace (λ t, t ++ [PreventDefault]) w).
Proof.
  cbv zeta. apply onCopy_nothing_to_copy; [reflexivity..|].
  split; reflexivity.
Defined.

(** ** The outbound pass and its latch *)

(** X9: after one pass of the selection effect in a focused editor, out
    of composition and with a native selection object, the native
    selection holds a range undirected-equal to the projection of the
    logical selection, or no range if there is no logical selection; the
    model is not touched. *)
Theorem syncSelection_installs (C : Collaborators) (w : World)
    (domSel : DOMSelection) :
  domSelection w = Some domSel →
  isComposing (state w) = false →
  IS_FOCUSED w = true →
  let w1 := finalWorld (syncSelection C w) in
  match selection (editor w) with
  | Some sel =>
      ∃ r, domSelection w1 ≫= rangeAt0 = Some r
           ∧ isRangeEqual r (toDOMRange C (editor w) sel) = true
  | None => domSelection w1 ≫= rangeAt0 = None
  end
  ∧ editor w1 = editor w.
Proof.
  destruct w as [[cs sel iv] [cmp upd le] foc ro ds ae dt arr tos tr].
  simpl. intros -> -> ->. destruct domSel as [native].
  destruct sel as [sel|], native as [r|]; run; cbn.
  - destruct (isRangeEqual r _) eqn:E; cbn.
    + split; [|done]. by exists r.
    + split; [|done]. eexists. split; [done|]. apply isRangeEqual_refl.
  - split; [|done]. eexists. split; [done|]. apply isRangeEqual_refl.
  - done.
  - done.
Qed.

Lemma syncSelection_installs_witness :
  let C := Sample.collaborators false in
  let sel := mkRange (Sample.at_ [0; 0] 0) (Sample.at_ [0; 0] 2) in
  let w := Sample.world (Some sel) (Some (mkDOMRange 12 0 12 0)) in
  let w1 := finalWorld (syncSelection C w) in
  (∃ r, domSelection w1 ≫= rangeAt0 = Some r
        ∧ isRangeEqual r (toDOMRange C (editor w) sel) = true)
  ∧ editor w1 = editor w.
Proof.
  cbv zeta.
  exact (syncSelection_installs (Sample.collaborators false)
           (Sample.world (Some (mkRange (Sample.at_ [0; 0] 0)
                                  (Sample.at_ [0; 0] 2)))
              (Some (mkDOMRange 12 0 12 0)))
           (mkDOMSelection (Some (mkDOMRange 12 0 12 0)))
           eq_refl eq_refl eq_refl).
Defined.

Lemma syncSelection_wrote (C : Collaborators) (w : World) :
  let w1 := finalWorld (syncSelection C w) in
  w1 = w
  ∨ (isUpdatingSelection (state w1) = true ∧ timeouts w1 ≠ []
     ∧ ∃ a t, emitted w w1 = a :: t).
Proof.
  destruct w as [[cs sel iv] [cmp upd le] foc ro ds ae dt arr tos tr].
  destruct ds as [[native]|]; [|by left].
  destruct cmp; [by left|]. destruct foc; [|by left].
  destruct sel as [sel|], native as [r|]; run; cbn.
  - destruct (isRangeEqual r _) eqn:E; cbn; [by left|].
    right. split; [done|]. split; [by destruct tos|].
    eexists _, _. apply emitted_app. cbn. by rewrite <- !app_assoc.
  - right. split; [done|]. split; [by destruct tos|].
    eexists _, _. apply emitted_app. cbn. by rewrite <- !app_assoc.
  - right. split; [done|]. split; [by destruct tos|].
    eexists _, _. by apply emitted_app.
  - by left.
Qed.



Lemma runTimeouts_latch (ts : list Timeout) (w : World) :
  let w' := finalWorld (foldr (λ t k, _ ← runTimeout t; k) skip ts w) in
  timeouts w' = timeouts w
  ∧ (ts ≠ [] → isUpdatingSelection (state w') = false)
  ∧ (ts = [] → state w' = state w).
Proof.
  revert w. induction ts as [|[refocus] ts IH]; intros w; [done|].
  cbv zeta.
  set (w0 := with_state
               (λ s, mkHookState (isComposing s) false (latestElement s))
               (match refocus with
                | Some el => with_activeElement (Some el)
                               (with_trace (λ t, t ++ [FocusElement el]) w)
                | None => w
                end)).
  assert (finalWorld (foldr (λ t k, _ ← runTimeout t; k) skip
                        ({| refocus := refocus |} :: ts) w)
          = finalWorld (foldr (λ t k, _ ← runTimeout t; k) skip ts w0)) as ->.
  { by destruct refocus. }
  destruct (IH w0) as (Ht & Hne & Hnil). split; [|split; [|done]].
  - rewrite Ht. by destruct refocus, w.
  - intros _. destruct ts as [|t ts]; [|by apply Hne].
    rewrite Hnil by done. by destruct refocus, w.
Qed.

(** X11: the updatingSelection flag cannot stay set.  If it is set only
    while a deferred callback is pending (as at mount, where it is clear),
    a pass of the selection effect keeps it so, and the next macrotask
    leaves the flag clear and no callback pending. *)
Theorem updatingSelection_released (C : Collaborators) (w : World) :
  latched w →
  latched (finalWorld (syncSelection C w))
  ∧ (let w2 := finalWorld (flushTimeouts w) in
     isUpdatingSelection (state w2) = false ∧ timeouts w2 = []).
Proof.
  intros Hlatched. split.
  - destruct (syncSelection_wrote C w) as [->|(_ & Hpending & _)]; [done|].
    by intros _.
  - cbv zeta.
    change (finalWorld (flushTimeouts w)) with
      (finalWorld (foldr (λ t k, _ ← runTimeout t; k) skip (timeouts w)
                     (with_timeouts (const []) w))).
    destruct (runTimeouts_latch (timeouts w) (with_timeouts (const []) w))
      as (Ht & Hne & Hnil).
    split; [|rewrite Ht; by destruct w].
    destruct (timeouts w) as [|t ts] eqn:Hts; [|by apply Hne].
    rewrite Hnil by done.
    destruct (isUpdatingSelection (state w)) eqn:Hflag.
    + by destruct (Hlatched Hflag).
    + by destruct w.
Qed.

Lemma updatingSelection_released_witness :
  let C := Sample.collaborators true in
  let sel := mkRange (Sample.at_ [0; 0] 0) (Sample.at_ [0; 0] 2) in
  let w := finalWorld (syncSelection C (Sample.world (Some sel) None)) in
  latched (finalWorld (syncSelection C w))
  ∧ (let w2 := finalWorld (flushTimeouts w) in
     isUpdatingSelection (state w2) = false ∧ timeouts w2 = []).
Proof.
  cbv zeta. apply updatingSelection_released. intros _. vm_compute.
  discriminate.
Defined.

(** ** The inbound pass *)

(** X12: out of composition and with no own write in flight, one run of
    the [selectionchange] listener sets the focused flag to whether the
    active element is the editor's element (recording it if so), and asks
    the model exactly one thing: to select the projection of the native
    range when there is one with both ends in editable nodes of the
    editor, to deselect otherwise.  It leaves the document's children and
    the native selection alone. *)
Theorem onDOMSelectionChange_projects (C : Collaborators) (w : World) :
  isComposing (state w) = false →
  isUpdatingSelection (state w) = false →
  let e := editor w in
  let el := editorElement C e in
  let w' := finalWorld (onDOMSelectionChange C false w) in
  IS_FOCUSED w' = bool_decide (activeElement w = Some el)
  ∧ latestElement (state w')
    = (if bool_decide (activeElement w = Some el) then Some el
       else latestElement (state w))
  ∧ children (editor w') = children e
  ∧ domSelection w' = domSelection w
  ∧ match domSelection w ≫= rangeAt0 with
    | Some r =>
        if hasDOMNode C e (startContainer r) true
           && hasDOMNode C e (endContainer r) true
        then selection (editor w') = Some (toSlateRange C e r)
             ∧ emitted w w' = [Select (toSlateRange C e r)]
        else selection (editor w') = None ∧ emitted w w' = [Deselect]
    | None => selection (editor w') = None ∧ emitted w w' = [Deselect]
    end.
Proof.
  destruct w as [e [cmp upd le] foc ro ds ae dt arr tos tr].
  simpl. intros -> ->. unfold onDOMSelectionChange, hasEditableTarget. run.
  cbn.
  destruct (bool_decide (ae = Some (editorElement C e))) eqn:Hactive;
    [apply bool_decide_eq_true in Hactive|];
    (destruct ds as [[[r|]]|]; cbn;
     [destruct (hasDOMNode C e (startContainer r) true
                && hasDOMNode C e (endContainer r) true); cbn|..];
     repeat split; try done; by apply emitted_app).
Qed.

Lemma onDOMSelectionChange_projects_witness :
  let C := Sample.collaborators false in
  let w := Sample.world None (Some (mkDOMRange 3 0 3 1)) in
  let w' := finalWorld (onDOMSelectionChange C false w) in
  IS_FOCUSED w' = true
  ∧ latestElement (state w') = Some 0
  ∧ children (editor w') = children (editor w)
  ∧ domSelection w' = domSelection w
  ∧ selection (editor w')
    = Some (mkRange (Sample.at_ [0; 0] 0) (Sample.at_ [0; 0] 1))
  ∧ emitted w w'
    = [Select (mkRange (Sample.at_ [0; 0] 0) (Sample.at_ [0; 0] 1))].
Proof.
  cbv zeta.
  exact (onDOMSelectionChange_projects (Sample.collaborators false)
           (Sample.world None (Some (mkDOMRange 3 0 3 1))) eq_refl eq_refl).
Defined.

(** X13: inbound, then outbound.  After the listener has selected the
    projection of a native range of a focused editor, the selection
    effect finds nothing to do, provided the registry projects that
    logical range back to a range undirected-equal to the native one: the
    two directions do not feed each other. *)
Theorem inbound_then_outbound_is_quiet (C : Collaborators) (w : World)
    (r : DOMRange) :
  let e := editor w in
  let range := toSlateRange C e r in
  let w1 := finalWorld (onDOMSelectionChange C false w) in
  isComposing (state w) = false →
  isUpdatingSelection (state w) = false →
  domSelection w = Some (mkDOMSelection (Some r)) →
  activeElement w = Some (editorElement C e) →
  hasDOMNode C e (startContainer r) true = true →
  hasDOMNode C e (endContainer r) true = true →
  isRangeEqual r (toDOMRange C (Transforms_select e range) range) = true →
  selection (editor w1) = Some range
  ∧ syncSelection C w1 = Returned () w1.
Proof.
  destruct w as [e [cmp upd le] foc ro ds ae dt arr tos tr].
  simpl. intros -> -> -> -> Hs He Heq.
  unfold onDOMSelectionChange, hasEditableTarget.
  cbv [select setLatestElement emit modify gets mbind mret M_bind M_ret
       finalWorld].
  cbn. rewrite bool_decide_eq_true_2 by done. cbn. rewrite Hs, He. cbn.
  split; [done|]. apply settled_noop. unfold settled. cbn.
  by rewrite Heq.
Qed.

Lemma inbound_then_outbound_is_quiet_witness :
  let C := Sample.collaborators false in
  let w := Sample.world None (Some (mkDOMRange 3 0 3 1)) in
  let w1 := finalWorld (onDOMSelectionChange C false w) in
  selection (editor w1)
  = Some (mkRange (Sample.at_ [0; 0] 0) (Sample.at_ [0; 0] 1))
  ∧ syncSelection C w1 = Returned () w1.
Proof.
  cbv zeta.
  exact (inbound_then_outbound_is_quiet (Sample.collaborators false)
           (Sample.world None (Some (mkDOMRange 3 0 3 1)))
           (mkDOMRange 3 0 3 1)
           eq_refl eq_refl eq_refl eq_refl eq_refl eq_refl eq_refl).
Defined.

(** ** Overrides of the caller *)

(** X14: a handler of the caller that marks the event (default prevented
    or propagation stopped) replaces the built-in behaviour of the click,
    copy, cut, drag-over, drag-start, focus and blur handlers: past its
    guard, each handler returns with the world as the caller's handler
    left it. *)
Theorem override_replaces_builtin (C : Collaborators) (props : EditableProps)
    (event : SyntheticEvent) (w w0 : World) :
  let e := editor w in
  (readOnly props = false → hasTarget C e (target event) = true →
   isEventHandled event (Runtime.onClick props) w = Returned true w0 →
   onClick C props event w = Returned () w0)
  ∧ (hasEditableTarget C e (target event) = true →
     isEventHandled event (Runtime.onCopy props) w = Returned true w0 →
     onCopy C props event w = Returned () w0)
  ∧ (readOnly props = false → hasEditableTarget C e (target event) = true →
     isEventHandled event (Runtime.onCut props) w = Returned true w0 →
     onCut C props event w = Returned () w0)
  ∧ (hasTarget C e (target event) = true →
     isEventHandled event (Runtime.onDragOver props) w = Returned true w0 →
     onDragOver C props event w = Returned () w0)
  ∧ (hasTarget C e (target event) = true →
     isEventHandled event (Runtime.onDragStart props) w = Returned true w0 →
     onDragStart C props event w = Returned () w0)
  ∧ (readOnly props = false → isUpdatingSelection (state w) = false →
     hasEditableTarget C e (target event) = true →
     isEventHandled event (Runtime.onFocus props) w = Returned true w0 →
     onFocus C props event w = Returned () w0)
  ∧ (readOnly props = false → isUpdatingSelection (state w) = false →
     hasEditableTarget C e (target event) = true →
     isEventHandled event (Runtime.onBlur props) w = Returned true w0 →
     onBlur C props event w = Returned () w0).
Proof.
  cbv zeta. repeat split.
  - intros Hro Ht Hh. unfold onClick.
    cbv [gets mbind M_bind skip mret M_ret]. rewrite Hro, Ht. cbn [negb andb orb]. by rewrite Hh.
  - intros Ht Hh. unfold onCopy.
    cbv [gets mbind M_bind skip mret M_ret]. rewrite Ht. cbn [negb andb orb]. by rewrite Hh.
  - intros Hro Ht Hh. unfold onCut.
    cbv [gets mbind M_bind skip mret M_ret]. rewrite Hro, Ht. cbn [negb andb orb]. by rewrite Hh.
  - intros Ht Hh. unfold onDragOver.
    cbv [gets mbind M_bind skip mret M_ret]. rewrite Ht. cbn [negb andb orb]. by rewrite Hh.
  - intros Ht Hh. unfold onDragStart.
    cbv [gets mbind M_bind skip mret M_ret]. rewrite Ht. cbn [negb andb orb]. by rewrite Hh.
  - intros Hro Hu Ht Hh. unfold onFocus.
    cbv [gets mbind M_bind skip mret M_ret]. rewrite Hro, Hu, Ht. cbn [negb andb orb]. by rewrite Hh.
  - intros Hro Hu Ht Hh. unfold onBlur.
    cbv [gets mbind M_bind skip mret M_ret]. rewrite Hro, Hu, Ht. cbn [negb andb orb]. by rewrite Hh.
Qed.

Lemma override_replaces_builtin_witness :
  let C := Sample.collaborators false in
  let sel := mkRange (Sample.at_ [0; 0] 0) (Sample.at_ [0; 0] 2) in
  let w := Sample.world (Some sel) None in
  onClick C (overridden false) (Sample.event 13) w = Returned () w
  ∧ onCut C (overridden false) (Sample.event 3) w = Returned () w
  ∧ onDragStart C (overridden false) (Sample.event 12) w = Returned () w.
Proof.
  cbv zeta. split; [|split].
  - by apply (proj1 (override_replaces_builtin _ _ _ _ _)).
  - by apply (proj1 (proj2 (proj2 (override_replaces_builtin _ _ _ _ _)))).
  - by apply (proj1 (proj2 (proj2 (proj2 (proj2
               (override_replaces_builtin _ _ _ _ _)))))).
Defined.

(** X15: an event whose target is not in the editor is ignored by every
    handler, and the caller's own handler is not even asked: the world is
    returned as it was, whatever the props.  For click, drag-over and
    drag-start the target must be in the editor; for copy, cut, focus and
    blur it must also be editable. *)
Theorem foreign_target_is_ignored (C : Collaborators) (props : EditableProps)
    (event : SyntheticEvent) (w : World) :
  let e := editor w in
  (hasTarget C e (target event) = false →
   onClick C props event w = Returned () w
   ∧ onDragOver C props event w = Returned () w
   ∧ onDragStart C props event w = Returned () w)
  ∧ (hasEditableTarget C e (target event) = false →
     onCopy C props event w = Returned () w
     ∧ onCut C props event w = Returned () w
     ∧ onFocus C props event w = Returned () w
     ∧ onBlur C props event w = Returned () w)
  ∧ (target event = None ∨ target event = Some TargetOther →
     hasTarget C e (target event) = false
     ∧ hasEditableTarget C e (target event) = false).
Proof.
  cbv zeta. split; [|split].
  - intros Ht. unfold onClick, onDragOver, onDragStart.
    cbv [gets mbind M_bind skip mret M_ret]. rewrite Ht.
    by rewrite andb_false_r.
  - intros Ht. unfold onCopy, onCut, onFocus, onBlur.
    cbv [gets mbind M_bind skip mret M_ret]. rewrite Ht.
    by rewrite !andb_false_r, orb_true_r.
  - by intros [-> | ->].
Qed.

Lemma foreign_target_is_ignored_witness :
  let C := Sample.collaborators false in
  let w := Sample.world (Some (Sample.caret [0; 0] 1)) None in
  onCopy C (overridden false) (Sample.event 13) w = Returned () w
  ∧ onCut C (overridden false) (Sample.event 13) w = Returned () w.
Proof.
  cbv zeta.
  destruct (proj1 (proj2 (foreign_target_is_ignored
                            (Sample.collaborators false) (overridden false)
                            (Sample.event 13)
                            (Sample.world (Some (Sample.caret [0; 0] 1)) None)))
              eq_refl) as (Hcopy & Hcut & _).
  by split.
Defined.

(** ** Blur and focus *)

(** X16: without a handler of the caller, a blur returns and touches
    nothing but the focused flag, which it can only clear.  The flag is
    kept in read-only mode, during the component's own selection update,
    when the active element is still the one recorded at the last focus
    (the window lost focus, not the editor), and when focus returns to
    the editor's element.  Past the guard, with another active element, the
    flag is cleared when focus goes nowhere, or to a node outside the
    editor that is no spacer. *)
Theorem onBlur_clears_focus (C : Collaborators) (props : EditableProps)
    (event : SyntheticEvent) (w : World) :
  Runtime.onBlur props = None →
  let e := editor w in
  let el := editorElement C e in
  let w' := finalWorld (onBlur C props event w) in
  onBlur C props event w = Returned () w'
  ∧ (w' = w ∨ w' = with_IS_FOCUSED false w)
  ∧ (readOnly props = true ∨ isUpdatingSelection (state w) = true
     ∨ latestElement (state w) = activeElement w
     ∨ relatedTarget event = Some (TargetNode el) → w' = w)
  ∧ (readOnly props = false → isUpdatingSelection (state w) = false →
     hasEditableTarget C e (target event) = true →
     latestElement (state w) ≠ activeElement w →
     match relatedTarget event with
     | Some (TargetNode rt) =>
         rt ≠ el
         ∧ isLiveElement C rt && liveHasAttribute C rt "data-slate-spacer"
           = false
         ∧ hasDOMNode C e rt false = false
     | _ => True
     end →
     w' = with_IS_FOCUSED false w).
Proof.
  intros Hnone. cbv zeta. unfold onBlur.
  cbv [isEventHandled gets modify mbind M_bind skip mret M_ret finalWorld].
  rewrite Hnone.
  destruct (readOnly props); cbn [orb negb];
    [by repeat split; auto; intros; discriminate|].
  destruct (isUpdatingSelection (state w)); cbn [orb negb];
    [by repeat split; auto; intros; discriminate|].
  destruct (hasEditableTarget C (editor w) (target event)); cbn [orb negb];
    [|by repeat split; auto; intros; discriminate].
  case_bool_decide as Hlatest; [by repeat split; auto|].
  destruct (relatedTarget event) as [[rt|]|]; cycle 1.
  { repeat split; auto. intros [? | [? | [? | ?]]]; done. }
  { repeat split; auto. intros [? | [? | [? | ?]]]; done. }
  case_bool_decide as Hrt;
    [by repeat split; auto; intros _ _ _ _ (? & _)|].
  destruct (isLiveElement C rt && liveHasAttribute C rt "data-slate-spacer")
    eqn:Hspacer.
  { repeat split; auto. by intros _ _ _ _ (_ & ? & _). }
  destruct (hasDOMNode C (editor w) rt false) eqn:Hin; cbn [andb].
  - destruct (match toSlateNode C (editor w) rt with
              | Desc (Element k cs) => negb (isVoid (editor w) (Element k cs))
              | _ => false
              end).
    + repeat split; auto. by intros _ _ _ _ (_ & _ & ?).
    + repeat split; auto. intros [? | [? | [? | [=]]]]; done.
  - repeat split; auto. intros [? | [? | [? | [=]]]]; done.
Qed.

Lemma onBlur_clears_focus_witness :
  let C := Sample.collaborators false in
  let w := Sample.world None None in
  let w' := finalWorld (onBlur C (Sample.props false None None)
                          (Sample.event 3) w) in
  onBlur C (Sample.props false None None) (Sample.event 3) w
  = Returned () w'
  ∧ w' = with_IS_FOCUSED false w.
Proof.
  cbv zeta.
  pose proof (onBlur_clears_focus (Sample.collaborators false)
                (Sample.props false None None) (Sample.event 3)
                (Sample.world None None) eq_refl) as (Hr & _ & _ & Hc).
  split; [exact Hr|]. apply Hc; done.
Defined.

(** X17: without a handler of the caller, a focus past its guard records
    the active element as the latest one and leaves the document, the
    logical and the native selection alone.  Where the browser is Firefox
    and the target is not the editor's element (a nested editable
    element), it moves the focus to the editor's element and leaves the
    focused flag for the focus event that follows, which sets it;
    everywhere else it sets the flag at once. *)
Theorem onFocus_records_focus (C : Collaborators) (props : EditableProps)
    (event : SyntheticEvent) (w : World) :
  Runtime.onFocus props = None →
  readOnly props = false →
  isUpdatingSelection (state w) = false →
  hasEditableTarget C (editor w) (target event) = true →
  let e := editor w in
  let el := editorElement C e in
  let w' := finalWorld (onFocus C props event w) in
  onFocus C props event w = Returned () w'
  ∧ latestElement (state w') = activeElement w
  ∧ editor w' = e ∧ domSelection w' = domSelection w
  ∧ if IS_FIREFOX C && negb (bool_decide (target event = Some (TargetNode el)))
    then emitted w w' = [FocusElement el]
         ∧ activeElement w' = Some el
         ∧ IS_FOCUSED w' = IS_FOCUSED w
         ∧ ∀ next,
             target next = Some (TargetNode el) →
             hasEditableTarget C e (target next) = true →
             let w'' := finalWorld (onFocus C props next w') in
             IS_FOCUSED w'' = true
             ∧ latestElement (state w'') = Some el
             ∧ emitted w' w'' = []
    else emitted w w' = []
         ∧ activeElement w' = activeElement w
         ∧ IS_FOCUSED w' = true.
Proof.
  intros Hnone Hro Hupd Ht. cbv zeta. unfold onFocus.
  cbv [isEventHandled focusElement setLatestElement emit gets modify
       mbind M_bind skip mret M_ret finalWorld].
  rewrite Hnone, Hro, Hupd, Ht. cbn [negb andb].
  destruct w as [e [cmp upd le] foc ro ds ae dt arr tos tr]. cbn.
  cbn in Hupd, Ht. subst upd.
  assert (∀ (a b : World), trace b = trace a → emitted a b = []) as Hquiet.
  { intros a b Hab. apply emitted_app. by rewrite app_nil_r. }
  destruct (IS_FIREFOX C) eqn:Hff; cbn [andb];
    [|by repeat split; try apply Hquiet].
  case_bool_decide as Htarget; cbn [negb];
    [by repeat split; try apply Hquiet|].
  do 4 (split; [done|]). split; [by apply emitted_app|]. do 2 (split; [done|]).
  intros next Hnext Hin. rewrite Hnext in Hin |- *. cbn in Hin |- *.
  rewrite Hin. cbn. rewrite bool_decide_eq_true_2 by done. cbn.
  by repeat split; try apply Hquiet.
Qed.

Lemma onFocus_records_focus_witness :
  let C := Sample.collaborators true in
  let w := Sample.world None None in
  let w' := finalWorld (onFocus C (Sample.props false None None)
                          (Sample.event 3) w) in
  onFocus C (Sample.props false None None) (Sample.event 3) w
  = Returned () w'
  ∧ emitted w w' = [FocusElement 0]
  ∧ IS_FOCUSED (finalWorld (onFocus C (Sample.props false None None)
                              (Sample.event 0) w')) = true.
Proof.
  cbv zeta.
  pose proof (onFocus_records_focus (Sample.collaborators true)
                (Sample.props false None None) (Sample.event 3)
                (Sample.world None None) eq_refl eq_refl eq_refl eq_refl)
    as (Hr & _ & _ & _ & He & _ & _ & Hnext).
  split; [exact Hr|]. split; [exact He|].
  exact (proj1 (Hnext (Sample.event 0) eq_refl eq_refl)).
Defined.

(** ** Drag start inside a void node *)

(** The two ends of the range of a path lie below the path. *)
Lemma Editor_range_below (e : Editor) (p : Path) (range : Range) :
  Editor_range e (AtPath p) = Some range →
  ∃ x, path (Range_edges range).1 = p ++ x.
Proof.
  unfold Editor_range, Editor_start, Editor_end, Editor_point,
    Node_first, Node_last.
  destruct (Node_get e p) as [n|]; [|done]. cbn.
  destruct (Node_get e (p ++ first_of e n)) as [[|[t|]]|]; try done. cbn.
  destruct (Node_get e (p ++ last_of e n)) as [[|[t'|]]|]; try done. cbn.
  intros [= <-]. unfold Range_edges.
  destruct (Range_isBackward _); cbn; eauto.
Qed.

(** X18: a drag that starts on a node strictly inside a void node (its
    spacer, say), with no handler of the caller, first selects the range
    of the target's node and then hands that selection to the codec.
    Whenever the handler returns, the selection is that range, the
    document is as it was, and the three formats have been written after
    the selection was made: a drag from inside a void node never leaves
    the transfer object empty. *)
Theorem onDragStart_inside_void (C : Collaborators) (props : EditableProps)
    (event : SyntheticEvent) (w : World) (t : DOMRef) (vp q : Path)
    (V : Descendant) (range : Range) :
  let e := editor w in
  let p := findPath C e (toSlateNode C e t) in
  let w1 := with_editor (λ e, Transforms_select e range)
              (with_trace (λ tr, tr ++ [Select range]) w) in
  Runtime.onDragStart props = None →
  target event = Some (TargetNode t) →
  hasDOMNode C e t false = true →
  p = vp ++ q → q ≠ [] →
  Node_get e vp = Some (Desc V) →
  Editor_isVoid e (Desc V) = true →
  Editor_range e (AtPath p) = Some range →
  onDragStart C props event w = setFragmentData C w1
  ∧ ∀ w', onDragStart C props event w = Returned () w' →
          selection (editor w') = Some range
          ∧ children (editor w') = children e
          ∧ ∃ a b c, emitted w w' = Select range :: entries a b c.
Proof.
  intros e p w1 Hnone Htarget Hin Hp Hq Hget Hvoid Hrange. subst p e.
  set (e := editor w) in *.
  set (p := findPath C e (toSlateNode C e t)) in *.
  destruct (Editor_void_below e vp q V (AtPath p) Hp Hget Hvoid Hq)
    as [above Habove].
  assert (onDragStart C props event w = setFragmentData C w1) as Hrun.
  { unfold onDragStart. subst p e.
    cbv [isEventHandled asDOMNode orThrow select emit gets modify
         mbind M_bind skip mret M_ret].
    rewrite Hnone, Htarget. cbn [hasTarget]. rewrite Hin.
    rewrite Habove, Hrange.
    by rewrite bool_decide_eq_true_2 by eauto. }
  split; [exact Hrun|]. intros w' Hret. rewrite Hrun in Hret.
  destruct (setFragmentData_frame C w1) as (dt & tr & Hw' & Htr).
  rewrite Hret in Hw'. cbn [finalWorld] in Hw'.
  assert (¬ nothingToCopy (editor w1)) as Hsome.
  { destruct (Editor_range_below e p range Hrange) as [x Hx].
    destruct (Editor_void_below (editor w1) vp (q ++ x) V
                (AtPath (path (Range_edges range).1))) as [above' Ha'].
    - cbn [Editor_path]. by rewrite Hx, Hp, app_assoc.
    - exact Hget.
    - exact Hvoid.
    - by destruct q.
    - intros Hn. unfold nothingToCopy in Hn.
      change (selection (editor w1)) with (Some range) in Hn.
      cbv beta iota in Hn. rewrite Ha' in Hn. by destruct Hn as [_ [=]]. }
  destruct Htr as [-> | (a & b & c & ->)].
  - exfalso. apply Hsome. apply (setFragmentData_silent C w1 w' Hret).
    rewrite Hw'. apply emitted_transfer.
  - subst w'. split; [done|]. split; [done|]. exists a, b, c.
    apply emitted_app. destruct w; cbn. by rewrite <- app_assoc.
Qed.

Lemma onDragStart_inside_void_witness :
  let C := Sample.collaborators false in
  let w := Sample.world None None in
  let range := Sample.caret [1; 0] 0 in
  onDragStart C (Sample.props true None None) (Sample.event 12) w
  = setFragmentData C
      (with_editor (λ e, Transforms_select e range)
         (with_trace (λ tr, tr ++ [Select range]) w)).
Proof.
  cbv zeta.
  refine (proj1 (onDragStart_inside_void (Sample.collaborators false)
                   (Sample.props true None None) (Sample.event 12)
                   (Sample.world None None) 12 [1] [0] Sample.image
                   (Sample.caret [1; 0] 0) _ _ _ _ _ _ _ _)); done.
Defined.

(** ** Who writes the native selection *)

Lemma untouched_refl (w : World) : untouched w w.
Proof. repeat split. exists []. by rewrite app_nil_r. Qed.

Lemma untouched_trans (w1 w2 w3 : World) :
  untouched w1 w2 → untouched w2 w3 → untouched w1 w3.
Proof.
  intros (Hd1 & t1 & Ht1 & Hn1) (Hd2 & t2 & Ht2 & Hn2).
  split; [congruence|]. exists (t1 ++ t2).
  split; [by rewrite Ht2, Ht1, app_assoc|].
  unfold nativeWrites in *. by rewrite filter_app, Hn1, Hn2.
Qed.

Lemma untouched_emitted (w w' : World) :
  untouched w w' →
  domSelection w' = domSelection w
  ∧ nativeWrites (emitted w w') = [].
Proof.
  intros (Hd & t & Ht & Hn). by rewrite (emitted_app _ _ _ Ht).
Qed.

Ltac untouched_leaf :=
  split; [done|]; cbn; rewrite <- ?app_assoc;
  first [ by exists []; rewrite app_nil_r
        | by eexists; split; [reflexivity|] ].

Lemma setFragmentData_untouched (C : Collaborators) (w : World) :
  untouched w (finalWorld (setFragmentData C w)).
Proof.
  destruct (setFragmentData_frame C w) as (dt & t & -> & Ht).
  split; [by destruct w|]. exists t.
  split; [by destruct w|].
  by destruct Ht as [-> | (a & b & c & ->)].
Qed.

Lemma runTimeouts_untouched (ts : list Timeout) (w : World) :
  untouched w (finalWorld (foldr (λ t k, _ ← runTimeout t; k) skip ts w)).
Proof.
  revert w. induction ts as [|[[el|]] ts IH]; intros w.
  - apply untouched_refl.
  - eapply untouched_trans; [|apply IH]. destruct w. untouched_leaf.
  - eapply untouched_trans; [|apply IH]. destruct w. untouched_leaf.
Qed.

Lemma onCopy_untouched (C : Collaborators) (props : EditableProps)
    (event : SyntheticEvent) (w : World) :
  Runtime.onCopy props = None →
  untouched w (finalWorld (onCopy C props event w)).
Proof.
  intros Hnone. unfold onCopy.
  cbv [isEventHandled preventDefault emit gets modify mbind M_bind skip mret
       M_ret].
  rewrite Hnone.
  destruct (hasEditableTarget C (editor w) (target event));
    [|apply untouched_refl].
  eapply untouched_trans; [|apply setFragmentData_untouched].
  destruct w. untouched_leaf.
Qed.

Lemma onCut_untouched (C : Collaborators) (props : EditableProps)
    (event : SyntheticEvent) (w : World) :
  Runtime.onCut props = None →
  untouched w (finalWorld (onCut C props event w)).
Proof.
  intros Hnone. unfold onCut.
  cbv [isEventHandled preventDefault deleteFragment emit gets modify mbind
       M_bind skip mret M_ret].
  rewrite Hnone.
  destruct (negb (readOnly props)
            && hasEditableTarget C (editor w) (target event));
    [|apply untouched_refl].
  set (w1 := with_trace (λ t, t ++ [PreventDefault]) w).
  assert (untouched w w1) as H1 by (destruct w; untouched_leaf).
  pose proof (setFragmentData_untouched C w1) as H2.
  destruct (setFragmentData C w1) as [[] w2|w2]; cbn [finalWorld] in H2;
    [|by eapply untouched_trans].
  eapply untouched_trans; [by eapply untouched_trans|].
  destruct (selection (editor w2)) as [sel|]; [|apply untouched_refl].
  destruct (Range_isExpanded sel); [|apply untouched_refl].
  destruct w2. untouched_leaf.
Qed.

Lemma onDragStart_untouched (C : Collaborators) (props : EditableProps)
    (event : SyntheticEvent) (w : World) :
  Runtime.onDragStart props = None →
  untouched w (finalWorld (onDragStart C props event w)).
Proof.
  intros Hnone. unfold onDragStart.
  cbv [isEventHandled asDOMNode orThrow select emit gets modify throw mbind
       M_bind skip mret M_ret].
  rewrite Hnone.
  destruct (hasTarget C (editor w) (target event)); [|apply untouched_refl].
  destruct (target event) as [[t|]|]; try apply untouched_refl.
  destruct (Editor_void _ _) as [[above|]|];
    [|apply setFragmentData_untouched|apply untouched_refl].
  rewrite bool_decide_eq_true_2 by eauto.
  destruct (Editor_range _ _) as [range|]; [|apply untouched_refl].
  eapply untouched_trans; [|apply setFragmentData_untouched].
  destruct w. untouched_leaf.
Qed.

Ltac innermost x :=
  lazymatch x with
  | context [match ?y with _ => _ end] => innermost y
  | _ => destruct x
  end.

Ltac untouched_cases :=
  repeat (cbv beta iota;
          lazymatch goal with
          | |- context [match ?x with _ => _ end] => innermost x
          end);
  cbv beta iota; cbn [finalWorld];
  first [ apply untouched_refl
        | lazymatch goal with |- untouched ?w _ => destruct w end;
          untouched_leaf ].

Lemma handlers_untouched (C : Collaborators) (props : EditableProps)
    (event : SyntheticEvent) (readOnly : bool) (w : World) :
  Runtime.onBlur props = None →
  Runtime.onClick props = None →
  Runtime.onDragOver props = None →
  Runtime.onFocus props = None →
  untouched w (finalWorld (onBlur C props event w))
  ∧ untouched w (finalWorld (onClick C props event w))
  ∧ untouched w (finalWorld (onDragOver C props event w))
  ∧ untouched w (finalWorld (onFocus C props event w))
  ∧ untouched w (finalWorld (onDOMSelectionChange C readOnly w)).
Proof.
  intros Hblur Hclick Hover Hfocus.
  unfold onBlur, onClick, onDragOver, onFocus, onDOMSelectionChange.
  cbv [isEventHandled asDOMNode orThrow select deselect preventDefault
       focusElement setLatestElement emit gets modify throw mbind M_bind
       skip mret M_ret].
  rewrite Hblur, Hclick, Hover, Hfocus.
  split; [|split; [|split; [|split]]]; untouched_cases.
Qed.

(** X19: the native selection has one writer, the selection effect.
    With no handler of the caller, none of the blur, click, copy, cut,
    drag-over, drag-start and focus handlers, nor the [selectionchange]
    listener, nor the pending timeouts, changes the native selection or
    asks the platform to remove or add a range, whether it returns or
    throws. *)
Theorem native_selection_has_one_writer (C : Collaborators)
    (props : EditableProps) (event : SyntheticEvent) (readOnly : bool)
    (w : World) (m : M unit) :
  Runtime.onBlur props = None →
  Runtime.onClick props = None →
  Runtime.onCopy props = None →
  Runtime.onCut props = None →
  Runtime.onDragOver props = None →
  Runtime.onDragStart props = None →
  Runtime.onFocus props = None →
  In m [onBlur C props event; onClick C props event; onCopy C props event;
        onCut C props event; onDragOver C props event;
        onDragStart C props event; onFocus C props event;
        onDOMSelectionChange C readOnly; flushTimeouts] →
  let w' := finalWorld (m w) in
  domSelection w' = domSelection w
  ∧ nativeWrites (emitted w w') = [].
Proof.
  intros Hblur Hclick Hcopy Hcut Hover Hstart Hfocus Hm. cbv zeta.
  apply untouched_emitted.
  destruct (handlers_untouched C props event readOnly w
              Hblur Hclick Hover Hfocus) as (H1 & H2 & H3 & H4 & H5).
  cbn [In] in Hm.
  destruct Hm as [<- | [<- | [<- | [<- | [<- | [<- | [<- | [<- | [<- | []]]]]]]]]];
    try assumption.
  - by apply onCopy_untouched.
  - by apply onCut_untouched.
  - by apply onDragStart_untouched.
  - apply untouched_trans with (with_timeouts (const []) w);
      [by destruct w; untouched_leaf|].
    apply runTimeouts_untouched.
Qed.

Lemma native_selection_has_one_writer_witness :
  let C := Sample.collaborators false in
  let w := Sample.world (Some (Sample.caret [0; 0] 1))
             (Some (mkDOMRange 3 0 3 2)) in
  let w' := finalWorld (onCut C (Sample.props false None None)
                          (Sample.event 3) w) in
  domSelection w' = domSelection w
  ∧ nativeWrites (emitted w w') = [].
Proof.
  cbv zeta.
  apply (native_selection_has_one_writer (Sample.collaborators false)
           (Sample.props false None None) (Sample.event 3) false
           (Sample.world (Some (Sample.caret [0; 0] 1))
              (Some (mkDOMRange 3 0 3 2)))
           (onCut (Sample.collaborators false) (Sample.props false None None)
              (Sample.event 3)));
    try reflexivity.
  cbn [In]. tauto.
Defined.

(** ** Renders with the default [decorate] *)

Lemma render_default (C : Collaborators) (props : EditableProps)
    (memo : option (M unit)) (w : World) :
  decorate props = None →
  forallb wellFormed (children (editor w)) = true →
  ∃ ds,
    render C props memo w
    = Returned
        (mkRendered
           (useCallback_noDeps memo (onDOMSelectionChange C (readOnly props)))
           (length (arrays w)))
        (with_arrays (λ a, a ++ [ds])
           (with_IS_READ_ONLY (readOnly props) w))
    ∧ (∀ p, truthy (placeholder props) = true → soleEmptyLeaf (editor w) p →
            ds = [mkDecoration (mkPoint p 0) (mkPoint p 0) true
                    (placeholder props)])
    ∧ (truthy (placeholder props) = false
       ∨ (∀ p, ¬ soleEmptyLeaf (editor w) p) → ds = []).
Proof.
  intros Hdec Hwf. unfold render.
  cbv [defaultDecorate push orThrow emit gets modify mbind M_bind skip mret
       M_ret].
  rewrite Hdec. cbn [default].
  change (editor (with_arrays _ (with_IS_READ_ONLY _ w))) with (editor w).
  destruct (truthy (placeholder props)
            && bool_decide (length (children (editor w)) = 1)
            && bool_decide (length (Node_texts (editor w)) = 1)
            && bool_decide (Node_string (editor w) = [])) eqn:Hcond.
  - rewrite <- !andb_assoc in Hcond.
    apply andb_true_iff in Hcond as [Htruthy Hcond].
    rewrite andb_assoc in Hcond.
    apply placeholder_condition in Hcond as [p Hp]; [|done].
    rewrite (document_start _ _ _ _ Hwf Hp).
    exists [mkDecoration (mkPoint p 0) (mkPoint p 0) true (placeholder props)].
    split; [|split].
    + destruct w as [e st foc ro ds ae dt arr tos tr]. cbn.
      unfold with_arrays, with_IS_READ_ONLY. cbn. do 2 f_equal.
      replace (length arr) with (length arr + 0) by lia.
      by rewrite alter_app_r.
    + intros p' _ Hp'. unfold soleEmptyLeaf in *. congruence.
    + intros [Hf | Hf]; [congruence|]. by destruct (Hf p).
  - exists []. split; [by destruct w|]. split; [|done].
    intros p Htruthy Hp. exfalso.
    rewrite <- !andb_assoc, Htruthy in Hcond. cbn [andb] in Hcond.
    rewrite andb_assoc in Hcond.
    assert (∃ p, soleEmptyLeaf (editor w) p) as Hex by eauto.
    apply placeholder_condition in Hex; [congruence|done].
Qed.

(** X20: with the default [decorate] and a document whose elements all
    have a child, a render returns; it records the read-only prop, leaves
    the document, the selections and every earlier array alone, and hands
    the children a new array that holds exactly the placeholder
    decoration when the placeholder is a non-empty string and the
    document is one empty leaf, and nothing otherwise.  A second render
    allocates another array with the same content: with the default
    [decorate], placeholder decorations do not pile up. *)
Theorem render_default_decorate (C : Collaborators) (props : EditableProps)
    (memo : option (M unit)) (w : World) :
  decorate props = None →
  forallb wellFormed (children (editor w)) = true →
  ∃ r w' ds,
    render C props memo w = Returned r w'
    ∧ decorations r = length (arrays w)
    ∧ arrays w' = arrays w ++ [ds]
    ∧ IS_READ_ONLY w' = readOnly props
    ∧ editor w' = editor w ∧ domSelection w' = domSelection w
    ∧ emitted w w' = []
    ∧ (∀ p, truthy (placeholder props) = true → soleEmptyLeaf (editor w) p →
            ds = [mkDecoration (mkPoint p 0) (mkPoint p 0) true
                    (placeholder props)])
    ∧ (truthy (placeholder props) = false
       ∨ (∀ p, ¬ soleEmptyLeaf (editor w) p) → ds = [])
    ∧ ∃ r2 w2,
        render C props (Some (listener r)) w' = Returned r2 w2
        ∧ decorations r2 = S (decorations r)
        ∧ arrays w2 = arrays w ++ [ds; ds].
Proof.
  intros Hdec Hwf.
  destruct (render_default C props memo w Hdec Hwf) as (ds & Hrun & Hone & Hnone).
  set (w' := with_arrays (λ a, a ++ [ds])
               (with_IS_READ_ONLY (readOnly props) w)) in *.
  assert (editor w' = editor w) as He by by destruct w.
  destruct (render_default C props
              (Some (useCallback_noDeps memo
                       (onDOMSelectionChange C (readOnly props)))) w' Hdec)
    as (ds2 & Hrun2 & Hone2 & Hnone2); [by rewrite He|].
  rewrite He in Hone2, Hnone2.
  assert (ds2 = ds) as ->.
  { destruct (truthy (placeholder props)) eqn:Htruthy;
      [|by rewrite Hnone, Hnone2 by auto].
    destruct (Node_texts (editor w)) as [|[[[|c t]|k cs] p] [|x l]] eqn:Htexts;
      try (rewrite Hnone, Hnone2;
           [done|right; unfold soleEmptyLeaf; rewrite Htexts; congruence..]).
    by rewrite (Hone p), (Hone2 p). }
  eexists _, w', ds. split; [exact Hrun|].
  split; [done|]. split; [by destruct w|]. split; [by destruct w|].
  split; [done|]. split; [by destruct w|].
  split; [apply emitted_app; destruct w; cbn; by rewrite app_nil_r|].
  split; [done|]. split; [done|].
  eexists _, _. split; [exact Hrun2|]. cbn [decorations].
  split.
  - destruct w; cbn. rewrite length_app. cbn. lia.
  - destruct w; cbn. by rewrite <- app_assoc.
Qed.

Lemma render_default_decorate_witness :
  let C := Sample.collaborators false in
  let props := Sample.props false (Some (lit "Type here")) None in
  let w := Sample.around Sample.emptyDocument [] in
  ∃ r w' ds,
    render C props None w = Returned r w'
    ∧ decorations r = 0
    ∧ arrays w' = [ds]
    ∧ ds = [mkDecoration (mkPoint [0; 0] 0) (mkPoint [0; 0] 0) true
              (Some (lit "Type here"))].
Proof.
  cbv zeta.
  destruct (render_default_decorate (Sample.collaborators false)
              (Sample.props false (Some (lit "Type here")) None) None
              (Sample.around Sample.emptyDocument []) eq_refl eq_refl)
    as (r & w' & ds & Hrun & Hr & Ha & _ & _ & _ & _ & Hone & _).
  exists r, w', ds. split; [exact Hrun|]. split; [exact Hr|].
  split; [exact Ha|]. exact (Hone [0; 0] eq_refl eq_refl).
Defined.

(** ** The composition flag *)

Ltac composing_cases :=
  repeat (cbv beta iota;
          lazymatch goal with
          | |- context [match ?x with _ => _ end] => innermost x
          end);
  cbv beta iota; cbn [finalWorld];
  first [ reflexivity
        | lazymatch goal with |- _ = isComposing (state ?w) => by destruct w end ].

Lemma setFragmentData_composing (C : Collaborators) (w : World) :
  isComposing (state (finalWorld (setFragmentData C w)))
  = isComposing (state w).
Proof.
  destruct (setFragmentData_frame C w) as (dt & t & -> & _). by destruct w.
Qed.

Lemma plain_handlers_composing (C : Collaborators) (props : EditableProps)
    (event : SyntheticEvent) (readOnly : bool) (w : World) (m : M unit) :
  Runtime.onBlur props = None →
  Runtime.onClick props = None →
  Runtime.onDragOver props = None →
  Runtime.onFocus props = None →
  In m [onBlur C props event; onClick C props event;
        onDragOver C props event; onFocus C props event;
        onDOMSelectionChange C readOnly; syncSelection C] →
  isComposing (state (finalWorld (m w))) = isComposing (state w).
Proof.
  intros Hblur Hclick Hover Hfocus Hm. cbn [In] in Hm.
  destruct Hm as [<- | [<- | [<- | [<- | [<- | [<- | []]]]]]];
    unfold onBlur, onClick, onDragOver, onFocus, onDOMSelectionChange,
      syncSelection;
    cbv [isEventHandled asDOMNode orThrow select deselect preventDefault
         focusElement setLatestElement setUpdatingSelection removeAllRanges
         addRange emit gets modify throw mbind M_bind skip mret M_ret];
    rewrite ?Hblur, ?Hclick, ?Hover, ?Hfocus; composing_cases.
Qed.

(** X21: nothing writes the composition flag.  The selection effect and
    its timeouts, the [selectionchange] listener, a render with the
    default [decorate] and, with no handler of the caller, the blur,
    click, copy, cut, drag-over, drag-start and focus handlers all leave
    [state.isComposing] as it was, whether they return or throw; so the
    flag keeps the value [false] it is created with, and the guards that
    read it never close. *)
Theorem composition_flag_is_never_written (C : Collaborators)
    (props : EditableProps) (event : SyntheticEvent) (readOnly : bool)
    (memo : option (M unit)) (w : World) (m : M unit) :
  decorate props = None →
  Runtime.onBlur props = None →
  Runtime.onClick props = None →
  Runtime.onCopy props = None →
  Runtime.onCut props = None →
  Runtime.onDragOver props = None →
  Runtime.onDragStart props = None →
  Runtime.onFocus props = None →
  In m [onBlur C props event; onClick C props event; onCopy C props event;
        onCut C props event; onDragOver C props event;
        onDragStart C props event; onFocus C props event;
        onDOMSelectionChange C readOnly; syncSelection C; flushTimeouts;
        (_ ← render C props memo; skip)] →
  isComposing (state (finalWorld (m w))) = isComposing (state w).
Proof.
  intros Hdec Hblur Hclick Hcopy Hcut Hover Hstart Hfocus Hm.
  pose proof (plain_handlers_composing C props event readOnly w m
                Hblur Hclick Hover Hfocus) as Hplain.
  cbn [In] in Hm, Hplain.
  destruct Hm
    as [<- | [<- | [<- | [<- | [<- | [<- | [<- | [<- | [<- | [<- | [<- | []]]]]]]]]]]];
    try (apply Hplain; tauto).
  - unfold onCopy.
    cbv [isEventHandled preventDefault emit gets modify mbind M_bind skip
         mret M_ret].
    rewrite Hcopy.
    destruct (hasEditableTarget C (editor w) (target event)); [|done].
    rewrite setFragmentData_composing. by destruct w.
  - unfold onCut.
    cbv [isEventHandled preventDefault deleteFragment emit gets modify mbind
         M_bind skip mret M_ret].
    rewrite Hcut.
    destruct (negb (Runtime.readOnly props)
              && hasEditableTarget C (editor w) (target event)); [|done].
    set (w1 := with_trace (λ t, t ++ [PreventDefault]) w).
    pose proof (setFragmentData_composing C w1) as H1.
    replace (isComposing (state w)) with (isComposing (state w1))
      by by destruct w.
    destruct (setFragmentData C w1) as [[] w2|w2]; cbn [finalWorld] in H1;
      [|done].
    rewrite <- H1. composing_cases.
  - unfold onDragStart.
    cbv [isEventHandled asDOMNode orThrow select emit gets modify throw mbind
         M_bind skip mret M_ret].
    rewrite Hstart.
    destruct (hasTarget C (editor w) (target event)); [|done].
    destruct (target event) as [[t|]|]; try done.
    destruct (Editor_void _ _) as [[above|]|];
      [|apply setFragmentData_composing|done].
    rewrite bool_decide_eq_true_2 by eauto.
    destruct (Editor_range _ _) as [range|]; [|done].
    rewrite setFragmentData_composing. by destruct w.
  - pose proof (runTimeouts_frame (timeouts w) (with_timeouts (const []) w))
      as (_ & _ & Hc & _).
    change (finalWorld (flushTimeouts w)) with
      (finalWorld (foldr (λ t k, _ ← runTimeout t; k) skip (timeouts w)
                     (with_timeouts (const []) w))).
    rewrite Hc. by destruct w.
  - unfold render.
    cbv [defaultDecorate push orThrow emit gets modify mbind M_bind skip mret
         M_ret].
    rewrite Hdec. cbn [default]. cbv beta iota.
    destruct (truthy _ && _ && _ && _); [|by destruct w].
    destruct (Editor_start _ _); by destruct w.
Qed.

Lemma composition_flag_is_never_written_witness :
  let C := Sample.collaborators false in
  let w := Sample.world (Some (Sample.caret [0; 0] 1))
             (Some (mkDOMRange 3 0 3 2)) in
  isComposing (state (finalWorld (syncSelection C w))) = false.
Proof.
  cbv zeta.
  rewrite (composition_flag_is_never_written (Sample.collaborators false)
             (Sample.props false None None) (Sample.event 3) false None
             (Sample.world (Some (Sample.caret [0; 0] 1))
                (Some (mkDOMRange 3 0 3 2)))
             (syncSelection (Sample.collaborators false)));
    try reflexivity.
  cbn [In]. tauto.
Defined.
(** ** The deferred callback on Firefox *)

(** X22: what follows a write.  When a pass of the selection effect
    writes the native selection and no other callback is pending, the next
    macrotask asks the platform for one thing at most: on Firefox, if the
    pass installed a range, it focuses the editor's element, which becomes
    the active element; on other browsers, or if the pass only cleared the
    native selection, it asks for nothing.  Either way the document, the
    logical selection and the native selection stay as the pass left
    them. *)
Theorem refocus_after_write (C : Collaborators) (w : World) :
  let el := editorElement C (editor w) in
  let w1 := finalWorld (syncSelection C w) in
  let w2 := finalWorld (flushTimeouts w1) in
  timeouts w = [] →
  emitted w w1 ≠ [] →
  editor w2 = editor w
  ∧ domSelection w2 = domSelection w1
  ∧ if IS_FIREFOX C && bool_decide (is_Some (selection (editor w)))
    then emitted w1 w2 = [FocusElement el] ∧ activeElement w2 = Some el
    else emitted w1 w2 = [] ∧ activeElement w2 = activeElement w.
Proof.
  destruct w as [[cs sel iv] [cmp upd le] foc ro ds ae dt arr tos tr].
  cbv zeta. cbn [timeouts]. intros ->.
  assert (∀ (a b : World), trace b = trace a → emitted a b = []) as Hquiet.
  { intros a b Hab. apply emitted_app. by rewrite app_nil_r. }
  destruct ds as [[native]|]; [|by rewrite emitted_same].
  destruct cmp; [by rewrite emitted_same|].
  destruct foc; [|by rewrite emitted_same].
  destruct sel as [sel|], native as [r|]; run; cbn.
  - destruct (isRangeEqual r _) eqn:E; cbn; [by rewrite emitted_same|].
    intros _. destruct (IS_FIREFOX C); cbn;
      repeat split; first [by apply Hquiet | by apply emitted_app].
  - intros _. destruct (IS_FIREFOX C); cbn;
      repeat split; first [by apply Hquiet | by apply emitted_app].
  - intros _. rewrite andb_false_r. repeat split. by apply Hquiet.
  - by rewrite emitted_same.
Qed.

Lemma refocus_after_write_witness :
  let C := Sample.collaborators true in
  let w := Sample.world (Some (Sample.caret [0; 0] 1)) None in
  let w1 := finalWorld (syncSelection C w) in
  let w2 := finalWorld (flushTimeouts w1) in
  editor w2 = editor w
  ∧ domSelection w2 = domSelection w1
  ∧ emitted w1 w2 = [FocusElement 0] ∧ activeElement w2 = Some 0.
Proof.
  cbv zeta.
  apply (refocus_after_write (Sample.collaborators true)
           (Sample.world (Some (Sample.caret [0; 0] 1)) None) eq_refl).
  vm_compute. discriminate.
Defined.
